(** * The skill tests of [src/components/Footer.tsx]

    A shallow embedding of [getLevenshteinDistance] and of
    [calculateSpeakingScore] (with its local [normalize]), and the
    properties of the spoken-passage scorer proved about them; then the
    word highlighter, the handlers of the quiz and the decoding of the
    synthesized audio. *)

From Stdlib Require Import ZArith NArith Lia String Ascii.
From Stdlib Require Import Floats.SpecFloat.
From stdpp Require Import base decidable option numbers list sorting gmap.

Local Open Scope nat_scope.

(** ** JavaScript strings

    A JavaScript string is a sequence of UTF-16 code units; [length],
    [charAt], [===] and the regular expressions of the source (none has
    the [u] flag) all work on code units. *)

Abbreviation char := N.
Abbreviation jsstring := (list N).

(** Literals, written as Rocq strings of ASCII characters. *)
Definition js (s : string) : jsstring :=
  N_of_ascii <$> list_ascii_of_string s.

(** [s.charAt(k)]; [None] stands for the empty string that [charAt]
    returns out of range, so that [===] on two results is equality. *)
Definition charAt (s : jsstring) (k : nat) : option char := s !! k.

(** ** Bounded [for] loops

    [for_range lo hi body s] runs [body lo], [body (lo+1)], ...,
    [body (hi-1)] on the state, as [for (let i = lo; i < hi; i++)] does
    when the body changes neither [i] nor the bound.  A body can fail. *)

Fixpoint for_loop {St : Type} (n i : nat) (body : nat → St → option St)
    (s : St) : option St :=
  match n with
  | 0 => Some s
  | S n' => s' ← body i s; for_loop n' (S i) body s'
  end.

Definition for_range {St : Type} (lo hi : nat)
    (body : nat → St → option St) (s : St) : option St :=
  for_loop (hi - lo) lo body s.

(** ** Dense arrays

    [arr[i] = v] on an array without holes: it overwrites below the length
    and appends at the length.  Beyond the length JavaScript would leave
    holes; the model has no holes and fails there. *)

Definition arr_set {A : Type} (arr : list A) (i : nat) (v : A)
    : option (list A) :=
  if decide (i < length arr) then Some (<[i:=v]> arr)
  else if decide (i = length arr) then Some (arr ++ [v])
  else None.

Abbreviation matrix_t := (list (list nat)).

(** [matrix[i][j]], failing on [undefined]. *)
Definition mat_get (matrix : matrix_t) (i j : nat) : option nat :=
  row ← matrix !! i; row !! j.

(** [matrix[i][j] = v]: the row object is updated in place. *)
Definition mat_set (matrix : matrix_t) (i j v : nat) : option matrix_t :=
  row ← matrix !! i; row' ← arr_set row j v; Some (<[i:=row']> matrix).

(** ** [getLevenshteinDistance] (Footer.tsx, lines 120-151)

    The loops of the source run while [i <= b.length] and
    [j <= a.length], that is up to [S (length b)] and [S (length a)]
    excluded. *)

(** The body of the inner loop: the entry of row [i], column [j]. *)
Definition lev_cell (a b : jsstring) (i j : nat) (matrix : matrix_t)
    : option matrix_t :=
  if decide (charAt b (i - 1) = charAt a (j - 1)) then
    d ← mat_get matrix (i - 1) (j - 1);
    mat_set matrix i j d
  else
    sub ← mat_get matrix (i - 1) (j - 1);
    ins ← mat_get matrix i (j - 1);
    del ← mat_get matrix (i - 1) j;
    mat_set matrix i j (Nat.min (sub + 1) (Nat.min (ins + 1) (del + 1))).

(** The body of the outer loop: row [i], columns 1 to [a.length]. *)
Definition lev_row (a b : jsstring) (i : nat) (matrix : matrix_t)
    : option matrix_t :=
  for_range 1 (S (length a)) (lev_cell a b i) matrix.

(** The two early returns, the rows [[i]], the first row, the fill, and
    the entry returned. *)
Definition getLevenshteinDistance (a b : jsstring) : option nat :=
  if decide (length a = 0) then Some (length b)
  else if decide (length b = 0) then Some (length a)
  else
    matrix ← for_range 0 (S (length b)) (λ i matrix, arr_set matrix i [i]) [];
    matrix ← for_range 0 (S (length a)) (λ j matrix, mat_set matrix 0 j j) matrix;
    matrix ← for_range 1 (S (length b)) (lev_row a b) matrix;
    mat_get matrix (length b) (length a).

(** ** [normalize] and [split(" ")] (Footer.tsx, lines 783-785) *)

Local Open Scope N_scope.

(** The class [\w] of a regular expression without flags: [A-Za-z0-9_]. *)
Definition isWordChar (c : char) : bool :=
  ((48 <=? c) && (c <=? 57)) || ((65 <=? c) && (c <=? 90))
  || (c =? 95) || ((97 <=? c) && (c <=? 122)).

(** The class [\s], which is also what [trim] removes: the WhiteSpace and
    LineTerminator code points of ECMAScript. *)
Definition isWhiteSpace (c : char) : bool :=
  ((9 <=? c) && (c <=? 13)) || (c =? 32) || (c =? 160) || (c =? 5760)
  || ((8192 <=? c) && (c <=? 8202)) || (c =? 8232) || (c =? 8233)
  || (c =? 8239) || (c =? 8287) || (c =? 12288) || (c =? 65279).

Definition space : char := 32.

(** A code unit matched by [/[^\w\s]|_/]. *)
Definition isStripped (c : char) : bool :=
  negb (isWordChar c || isWhiteSpace c) || (c =? 95).

Local Close Scope N_scope.

(** [s.replace(/[^\w\s]|_/g, e)] for the empty string [e] *)
Definition strip (s : jsstring) : jsstring :=
  List.filter (λ c, negb (isStripped c)) s.

(** [s.replace(/\s+/g, " ")]: [in_run] tells that the previous code unit
    was white space, whose run has already been replaced. *)
Fixpoint collapse_from (in_run : bool) (s : jsstring) : jsstring :=
  match s with
  | [] => []
  | c :: r =>
    if isWhiteSpace c then
      if in_run then collapse_from true r else space :: collapse_from true r
    else c :: collapse_from false r
  end.

Definition collapse (s : jsstring) : jsstring := collapse_from false s.

Fixpoint trimStart (s : jsstring) : jsstring :=
  match s with
  | [] => []
  | c :: r => if isWhiteSpace c then trimStart r else s
  end.

Definition trimEnd (s : jsstring) : jsstring := rev (trimStart (rev s)).

(** [s.trim()] *)
Definition trim (s : jsstring) : jsstring := trimEnd (trimStart s).

(** [s.split(sep)] for a separator of one code unit; the empty string
    splits into one empty string. *)
Fixpoint split (sep : char) (s : jsstring) : list jsstring :=
  match s with
  | [] => [[]]
  | c :: r =>
    if decide (c = sep) then [] :: split sep r
    else match split sep r with
         | w :: ws => (c :: w) :: ws
         | [] => [[c]]
         end
  end.

(** ** Numbers

    [matches / targetWords.length * 100] is computed on IEEE 754 binary64
    values; [Math.round] makes the result integral, and the integral
    doubles are represented by their integer value. *)

Definition double : Type := spec_float.

Definition double_of_nat (n : nat) : double :=
  binary_normalize 53 1024 (Z.of_nat n) 0 false.

Definition fdiv : double → double → double := SFdiv 53 1024.
Definition fmul : double → double → double := SFmul 53 1024.

(** A number that is integral, [NaN] or an infinity ([JInf true] is
    [-Infinity]).  The sign of a zero is not kept. *)
Inductive number : Type :=
  | JInt (z : Z)
  | JNaN
  | JInf (negative : bool).

(** [Math.round(x)]: the integer closest to [x], the larger one on a tie,
    that is the floor of [x + 1/2] computed exactly. *)
Definition Math_round (x : double) : number :=
  match x with
  | S754_nan => JNaN
  | S754_infinity s => JInf s
  | S754_zero _ => JInt 0
  | S754_finite s m e =>
    let v := if s then Z.neg m else Z.pos m in
    JInt (if (0 <=? e)%Z then v * 2 ^ e
          else (2 * v + 2 ^ (- e)) `div` 2 ^ (1 - e))%Z
  end.

(** [Math.min(x, y)] *)
Definition Math_min (x y : number) : number :=
  match x, y with
  | JNaN, _ | _, JNaN => JNaN
  | JInf true, _ | _, JInf true => JInf true
  | JInf false, v | v, JInf false => v
  | JInt a, JInt b => JInt (Z.min a b)
  end.

(** [x >= y] *)
Definition number_ge (x y : number) : bool :=
  match x, y with
  | JNaN, _ | _, JNaN => false
  | JInf false, _ | _, JInf true => true
  | JInf true, _ | _, JInf false => false
  | JInt a, JInt b => bool_decide (b ≤ a)%Z
  end.

(** ** The greedy windowed aligner (Footer.tsx, lines 792-826) *)

Definition SEARCH_WINDOW : nat := 6.

(** [targetWord.length > 5 ? 2 : 1] *)
Definition allowedEdits (targetWord : jsstring) : nat :=
  if decide (5 < length targetWord) then 2 else 1.

(** The variables of the matching loop. *)
Record Align : Type := mkAlign {
  matches : nat;
  spokenIdx : nat;
  foundMatch : bool
}.

(** What both matching branches do before [break]. *)
Definition matched (st : Align) (i : nat) : Align :=
  {| matches := matches st + 1; spokenIdx := i + 1; foundMatch := true |}.

(** The inner loop, entered at [i] with [n] iterations left before
    [i] reaches [Math.min(spokenIdx + SEARCH_WINDOW, spokenWords.length)]
    (the bound only changes together with a [break]).  Below that bound
    [spokenWords[i]] is a word.  A distance that is [undefined] compares
    false with [allowedEdits]. *)
Fixpoint window_loop (targetWord : jsstring) (spokenWords : list jsstring)
    (n i : nat) (st : Align) : Align :=
  match n with
  | 0 => st
  | S n' =>
    match spokenWords !! i with
    | None => st
    | Some spokenWord =>
      if decide (spokenWord = targetWord) then matched st i
      else
        match getLevenshteinDistance targetWord spokenWord with
        | Some dist =>
          if decide (dist ≤ allowedEdits targetWord) then matched st i
          else window_loop targetWord spokenWords n' (S i) st
        | None => window_loop targetWord spokenWords n' (S i) st
        end
    end
  end.

(** One iteration of [for (const targetWord of targetWords)]. *)
Definition align_word (spokenWords : list jsstring) (st : Align)
    (targetWord : jsstring) : Align :=
  let st := {| matches := matches st; spokenIdx := spokenIdx st;
               foundMatch := false |} in
  let hi := Nat.min (spokenIdx st + SEARCH_WINDOW) (length spokenWords) in
  window_loop targetWord spokenWords (hi - spokenIdx st) (spokenIdx st) st.

Definition align_init : Align :=
  {| matches := 0; spokenIdx := 0; foundMatch := false |}.

Definition align_from (spokenWords : list jsstring) (st : Align)
    (targetWords : list jsstring) : Align :=
  foldl (align_word spokenWords) st targetWords.

Definition align (targetWords spokenWords : list jsstring) : Align :=
  align_from spokenWords align_init targetWords.

(** ** [calculateSpeakingScore] (Footer.tsx, lines 779-833) *)

Record SpeakingStory : Type := { story : jsstring }.

Record TestScore : Type := { correct : nat; total : nat }.

(** The component state that the function reads and sets. *)
Record SkillTest : Type := mkSkillTest {
  speakingData : option SpeakingStory;
  spokenText : jsstring;
  pronunciationScore : option number;
  score : TestScore
}.

Definition setPronunciationScore (v : number) (st : SkillTest) : SkillTest :=
  {| speakingData := speakingData st; spokenText := spokenText st;
     pronunciationScore := Some v; score := score st |}.

Definition setScore (v : TestScore) (st : SkillTest) : SkillTest :=
  {| speakingData := speakingData st; spokenText := spokenText st;
     pronunciationScore := pronunciationScore st; score := v |}.

(** [Math.round((matches / targetWords.length) * 100)] *)
Definition calculatedScore (matches len : nat) : number :=
  Math_round (fmul (fdiv (double_of_nat matches) (double_of_nat len))
                   (double_of_nat 100)).

(** The function from its guard on, for given word sequences: at the
    guard only [setPronunciationScore(0)] is called. *)
Definition scoreWords (targetWords spokenWords : list jsstring)
    (st : SkillTest) : SkillTest :=
  if decide (length spokenWords = 0
             ∨ (length spokenWords = 1 ∧ spokenWords !! 0 = Some []))
  then setPronunciationScore (JInt 0) st
  else
    let r := align targetWords spokenWords in
    let calculated := calculatedScore (matches r) (length targetWords) in
    setScore {| correct := if number_ge calculated (JInt 70) then 1 else 0;
                total := 1 |}
      (setPronunciationScore (Math_min (JInt 100) calculated) st).

Section Normalize.

(** [String.prototype.toLowerCase] is a built-in of the host. *)
Variable toLowerCase : jsstring → jsstring.

Definition normalize (s : jsstring) : jsstring :=
  trim (collapse (strip (toLowerCase s))).

(** [normalize(s).split(" ")] *)
Definition words (s : jsstring) : list jsstring :=
  split space (normalize s).

(** [spokenText], when falsy, is the empty string that replaces it. *)
Definition calculateSpeakingScore (st : SkillTest) : SkillTest :=
  match speakingData st with
  | None => st
  | Some data =>
    scoreWords (words (story data)) (words (spokenText st)) st
  end.

End Normalize.

(** The built-in on ASCII text: [A-Z] to [a-z]. *)
Definition ascii_toLowerCase (s : jsstring) : jsstring :=
  (λ c, if (65 <=? c)%N && (c <=? 90)%N then (c + 32)%N else c) <$> s.


(** ** [getWordHighlightClass] (Footer.tsx, lines 837-860) *)

(** [s.replace(/[^\w\s]|_/g, " ")] *)
Definition punctToSpace (s : jsstring) : jsstring :=
  (λ c, if isStripped c then space else c) <$> s.

(** [s.split(/\s+/)]: the pieces between the runs of white space;
    [in_run] tells that the previous code unit was white space, at which
    the piece before it ended. *)
Fixpoint split_ws (in_run : bool) (s : jsstring) : list jsstring :=
  match s with
  | [] => [[]]
  | c :: r =>
    if isWhiteSpace c then
      if in_run then split_ws true r else [] :: split_ws true r
    else match split_ws false r with
         | w :: ws => (c :: w) :: ws
         | [] => [[c]]
         end
  end.

(** The callback of [spokenWords.some]. *)
Definition highlightTest (targetWord sw : jsstring) : bool :=
  if decide (sw = targetWord) then true
  else
    let allowedEdits := if decide (5 < length targetWord) then 2 else 1 in
    match getLevenshteinDistance targetWord sw with
    | Some dist => bool_decide (dist ≤ allowedEdits)
    | None => false
    end.

Section Highlight.

Variable toLowerCase : jsstring → jsstring.

(** The spoken words as this function splits them. *)
Definition highlightWords (spokenText : jsstring) : list jsstring :=
  split_ws false (trim (punctToSpace (toLowerCase spokenText))).

(** The function reads [spokenText] from the component; [index] and
    [allTargetWords] are not used by its body. *)
Definition getWordHighlightClass (spokenText word : jsstring) : jsstring :=
  if decide (spokenText = []) then js "text-slate-300"
  else
    let targetWord := strip (toLowerCase word) in
    let spokenWords := highlightWords spokenText in
    let exists_ := existsb (highlightTest targetWord) spokenWords in
    if exists_ then js "text-green-400 font-medium"
    else js "text-slate-500 transition-colors duration-500".

End Highlight.


(** ** The quiz handlers (Footer.tsx, lines 198-205, 268-279, 621-690
    and 895-900)

    A handler is a closure of one render: what it reads is the state
    [snap] of that render, while its updates go to the state [cur] at
    the time it runs, a functional update [setX(prev => ...)] starting
    from the value in [cur].  A handler called from the latest render
    has [snap = cur]; the handler of a timer has the [snap] of the
    render that set the timer. *)

(** The [skill] property, without its icon. *)
Record LearningSkill : Type := { title : jsstring; description : jsstring }.

Definition isReadingTest (skill : LearningSkill) : bool :=
  bool_decide (title skill = js "Reading").
Definition isListeningTest (skill : LearningSkill) : bool :=
  bool_decide (title skill = js "Listening").
Definition isWritingTest (skill : LearningSkill) : bool :=
  bool_decide (title skill = js "Writing").
Definition isSpeakingTest (skill : LearningSkill) : bool :=
  bool_decide (title skill = js "Speaking").

Inductive QuizQuestion : Type :=
  | StandardQuiz (question answer : jsstring)
  | ReadingQuestion (question : jsstring) (options : list jsstring)
      (correctAnswer : jsstring).

(** [(q as ReadingQuestion).correctAnswer], which is [undefined] on a
    [StandardQuiz]. *)
Definition correctAnswerOf (q : QuizQuestion) : option jsstring :=
  match q with
  | StandardQuiz _ _ => None
  | ReadingQuestion _ _ correctAnswer => Some correctAnswer
  end.

Inductive TestState : Type := idle | loading | in_progress | completed.

(** The state that the handlers read and set; [testScore] is the
    [score] of the component, and [audioSourceRef] tells whether
    [audioSourceRef.current] holds a source. *)
Record Quiz : Type := mkQuiz {
  quizQuestions : option (list QuizQuestion);
  currentQuestionIndex : nat;
  testState : TestState;
  showAnswer : bool;
  questionAnswered : bool;
  selectedOption : option jsstring;
  userAnswers : gmap nat jsstring;
  testScore : TestScore;
  isPlayingAudio : bool;
  activeAudioId : option jsstring;
  audioSourceRef : bool
}.

Definition setCurrentQuestionIndex (v : nat) (q : Quiz) : Quiz :=
  {| quizQuestions := quizQuestions q;
     currentQuestionIndex := v;
     testState := testState q;
     showAnswer := showAnswer q;
     questionAnswered := questionAnswered q;
     selectedOption := selectedOption q;
     userAnswers := userAnswers q;
     testScore := testScore q;
     isPlayingAudio := isPlayingAudio q;
     activeAudioId := activeAudioId q;
     audioSourceRef := audioSourceRef q |}.

Definition setTestState (v : TestState) (q : Quiz) : Quiz :=
  {| quizQuestions := quizQuestions q;
     currentQuestionIndex := currentQuestionIndex q;
     testState := v;
     showAnswer := showAnswer q;
     questionAnswered := questionAnswered q;
     selectedOption := selectedOption q;
     userAnswers := userAnswers q;
     testScore := testScore q;
     isPlayingAudio := isPlayingAudio q;
     activeAudioId := activeAudioId q;
     audioSourceRef := audioSourceRef q |}.

Definition setShowAnswer (v : bool) (q : Quiz) : Quiz :=
  {| quizQuestions := quizQuestions q;
     currentQuestionIndex := currentQuestionIndex q;
     testState := testState q;
     showAnswer := v;
     questionAnswered := questionAnswered q;
     selectedOption := selectedOption q;
     userAnswers := userAnswers q;
     testScore := testScore q;
     isPlayingAudio := isPlayingAudio q;
     activeAudioId := activeAudioId q;
     audioSourceRef := audioSourceRef q |}.

Definition setQuestionAnswered (v : bool) (q : Quiz) : Quiz :=
  {| quizQuestions := quizQuestions q;
     currentQuestionIndex := currentQuestionIndex q;
     testState := testState q;
     showAnswer := showAnswer q;
     questionAnswered := v;
     selectedOption := selectedOption q;
     userAnswers := userAnswers q;
     testScore := testScore q;
     isPlayingAudio := isPlayingAudio q;
     activeAudioId := activeAudioId q;
     audioSourceRef := audioSourceRef q |}.

Definition setSelectedOption (v : option jsstring) (q : Quiz) : Quiz :=
  {| quizQuestions := quizQuestions q;
     currentQuestionIndex := currentQuestionIndex q;
     testState := testState q;
     showAnswer := showAnswer q;
     questionAnswered := questionAnswered q;
     selectedOption := v;
     userAnswers := userAnswers q;
     testScore := testScore q;
     isPlayingAudio := isPlayingAudio q;
     activeAudioId := activeAudioId q;
     audioSourceRef := audioSourceRef q |}.

Definition setUserAnswers (v : gmap nat jsstring) (q : Quiz) : Quiz :=
  {| quizQuestions := quizQuestions q;
     currentQuestionIndex := currentQuestionIndex q;
     testState := testState q;
     showAnswer := showAnswer q;
     questionAnswered := questionAnswered q;
     selectedOption := selectedOption q;
     userAnswers := v;
     testScore := testScore q;
     isPlayingAudio := isPlayingAudio q;
     activeAudioId := activeAudioId q;
     audioSourceRef := audioSourceRef q |}.

Definition setTestScore (v : TestScore) (q : Quiz) : Quiz :=
  {| quizQuestions := quizQuestions q;
     currentQuestionIndex := currentQuestionIndex q;
     testState := testState q;
     showAnswer := showAnswer q;
     questionAnswered := questionAnswered q;
     selectedOption := selectedOption q;
     userAnswers := userAnswers q;
     testScore := v;
     isPlayingAudio := isPlayingAudio q;
     activeAudioId := activeAudioId q;
     audioSourceRef := audioSourceRef q |}.

Definition setIsPlayingAudio (v : bool) (q : Quiz) : Quiz :=
  {| quizQuestions := quizQuestions q;
     currentQuestionIndex := currentQuestionIndex q;
     testState := testState q;
     showAnswer := showAnswer q;
     questionAnswered := questionAnswered q;
     selectedOption := selectedOption q;
     userAnswers := userAnswers q;
     testScore := testScore q;
     isPlayingAudio := v;
     activeAudioId := activeAudioId q;
     audioSourceRef := audioSourceRef q |}.

Definition setActiveAudioId (v : option jsstring) (q : Quiz) : Quiz :=
  {| quizQuestions := quizQuestions q;
     currentQuestionIndex := currentQuestionIndex q;
     testState := testState q;
     showAnswer := showAnswer q;
     questionAnswered := questionAnswered q;
     selectedOption := selectedOption q;
     userAnswers := userAnswers q;
     testScore := testScore q;
     isPlayingAudio := isPlayingAudio q;
     activeAudioId := v;
     audioSourceRef := audioSourceRef q |}.

Definition setAudioSourceRef (v : bool) (q : Quiz) : Quiz :=
  {| quizQuestions := quizQuestions q;
     currentQuestionIndex := currentQuestionIndex q;
     testState := testState q;
     showAnswer := showAnswer q;
     questionAnswered := questionAnswered q;
     selectedOption := selectedOption q;
     userAnswers := userAnswers q;
     testScore := testScore q;
     isPlayingAudio := isPlayingAudio q;
     activeAudioId := activeAudioId q;
     audioSourceRef := v |}.

(** [quizQuestions ? quizQuestions[currentQuestionIndex] : null] *)
Definition currentQuestion (snap : Quiz) : option QuizQuestion :=
  match quizQuestions snap with
  | Some qs => qs !! currentQuestionIndex snap
  | None => None
  end.

(** A string or [null] as a condition: the empty string is falsy. *)
Definition truthy (s : option jsstring) : bool :=
  match s with
  | Some (_ :: _) => true
  | _ => false
  end.

(** [stopAudio]: the source, when there is one, is stopped and
    dropped. *)
Definition stopAudio (cur : Quiz) : Quiz :=
  setActiveAudioId None (setIsPlayingAudio false (setAudioSourceRef false cur)).

Definition handleNextQuestion (skill : LearningSkill) (snap cur : Quiz)
    : Quiz :=
  let cur := setShowAnswer false cur in
  let cur := setQuestionAnswered false cur in
  let cur := setSelectedOption None cur in
  let cur := if negb (isListeningTest skill) then stopAudio cur else cur in
  if isWritingTest skill || isSpeakingTest skill then
    setTestState completed cur
  else
    match quizQuestions snap with
    | Some qs =>
      if (Z.of_nat (currentQuestionIndex snap) <? Z.of_nat (length qs) - 1)%Z
      then setCurrentQuestionIndex (currentQuestionIndex cur + 1) cur
      else setTestState completed (stopAudio cur)
    | None => setTestState completed (stopAudio cur)
    end.

(** [setScore(prev => ...)]: one more answer, correct or not. *)
Definition countAnswer (isCorrect : bool) (cur : Quiz) : Quiz :=
  setTestScore
    {| correct := correct (testScore cur) + (if isCorrect then 1 else 0);
       total := total (testScore cur) + 1 |} cur.

Definition handleSelfGrade (isCorrect : bool) (snap cur : Quiz) : Quiz :=
  if questionAnswered snap then cur
  else setQuestionAnswered true (countAnswer isCorrect cur).

(** The result tells whether [setTimeout(..., 1000)] was called, with
    the [handleNextQuestion] of this render. *)
Definition handleOptionSelect (skill : LearningSkill) (option : jsstring)
    (snap cur : Quiz) : Quiz * bool :=
  match currentQuestion snap with
  | None => (cur, false)
  | Some question =>
    if truthy (selectedOption snap) then (cur, false)
    else
      let cur := setSelectedOption (Some option) cur in
      let cur :=
        setUserAnswers
          (<[currentQuestionIndex snap := option]> (userAnswers cur)) cur in
      let isCorrect := bool_decide (Some option = correctAnswerOf question) in
      if isListeningTest skill || isReadingTest skill then
        (countAnswer isCorrect cur, true)
      else if isCorrect then (countAnswer true cur, true)
      else (countAnswer false cur, false)
  end.

(** Whether the button for the next question is shown; the two flags
    say that [writingFeedback] and [pronunciationScore] are set. *)
Definition isCurrentQuestionAnswered (skill : LearningSkill)
    (writingFeedback pronunciationScore : bool) (snap : Quiz) : bool :=
  if isReadingTest skill || isListeningTest skill then
    truthy (selectedOption snap)
  else if isWritingTest skill then writingFeedback
  else if isSpeakingTest skill then pronunciationScore
  else questionAnswered snap.

(** An answer to the current question, and the timer when one was set,
    with no other event before it fires. *)
Definition answerQuestion (skill : LearningSkill) (s : Quiz)
    (option : jsstring) : Quiz :=
  let '(s1, timer) := handleOptionSelect skill option s s in
  if timer then handleNextQuestion skill s s1 else s1.

(** The events of a quiz, each with the render its handler is from. *)
Inductive QuizEvent : Type :=
  | SelectOption (option : jsstring)
  | SelfGrade (isCorrect : bool)
  | NextQuestion.

Definition handleEvent (skill : LearningSkill) (cur : Quiz)
    (ev : QuizEvent * Quiz) : Quiz :=
  match ev with
  | (SelectOption option, snap) => (handleOptionSelect skill option snap cur).1
  | (SelfGrade isCorrect, snap) => handleSelfGrade isCorrect snap cur
  | (NextQuestion, snap) => handleNextQuestion skill snap cur
  end.

(** The events that count an answer. *)
Definition isAnswer (ev : QuizEvent * Quiz) : bool :=
  match ev with
  | (NextQuestion, _) => false
  | _ => true
  end.

(** The answers that are the correct answer of their question. *)
Fixpoint countCorrect (qs : list QuizQuestion) (answers : list jsstring)
    : nat :=
  match qs, answers with
  | q :: qs', o :: answers' =>
    (if bool_decide (Some o = correctAnswerOf q) then 1 else 0)
    + countCorrect qs' answers'
  | _, _ => 0
  end.


(** ** Decoding the synthesized audio (Footer.tsx, lines 258-266 and
    318-331)

    The synchronous part of [loadAudio], from the string that
    [window.atob] returns for the audio data. *)

(** [base64ToArrayBuffer] after [atob]: a [Uint8Array] keeps each code
    unit modulo 256. *)
Definition bytesOfBinaryString (binaryString : jsstring) : list Z :=
  (λ c, Z.of_N c `mod` 256)%Z <$> binaryString.

(** An element of an [Int16Array]: two bytes in the byte order of the
    platform, as a two's complement number. *)
Definition int16OfBytes (littleEndian : bool) (b0 b1 : Z) : Z :=
  let u := (if littleEndian then b0 + 256 * b1 else b1 + 256 * b0)%Z in
  if (u <? 32768)%Z then u else (u - 65536)%Z.

(** [new Int16Array(buffer, 0, Math.floor(buffer.byteLength / 2))]: a
    last byte without a partner is left out. *)
Fixpoint pcmData (littleEndian : bool) (bytes : list Z) : list Z :=
  match bytes with
  | b0 :: b1 :: rest =>
    int16OfBytes littleEndian b0 b1 :: pcmData littleEndian rest
  | _ => []
  end.

Definition double_of_Z (z : Z) : double := binary_normalize 53 1024 z 0 false.

(** A number stored in a [Float32Array]: rounded to binary32. *)
Definition toFloat32 (x : double) : spec_float :=
  match x with
  | S754_finite s m e => binary_round 24 128 s m e
  | _ => x
  end.

(** [channelData[i] = pcmData[i] / 32768.0] *)
Definition sampleOfInt16 (v : Z) : spec_float :=
  toFloat32 (fdiv (double_of_Z v) (double_of_Z 32768)).

Definition channelData (littleEndian : bool) (binaryString : jsstring)
    : list spec_float :=
  sampleOfInt16 <$> pcmData littleEndian (bytesOfBinaryString binaryString).

(** * Specification-side definitions *)

(** ** Edit distance *)

(** The recurrence of the edit distance, on the heads of the strings. *)
Fixpoint lev (x y : jsstring) : nat :=
  match x with
  | [] => length y
  | c :: x' =>
    (fix lev_x (y : jsstring) : nat :=
       match y with
       | [] => length x
       | d :: y' =>
         if decide (c = d) then lev x' y'
         else S (Nat.min (lev x' y') (Nat.min (lev x' y) (lev_x y')))
       end) y
  end.

(** One single-character insertion, deletion or substitution. *)
Inductive edit1 : jsstring → jsstring → Prop :=
  | edit_insert l c r : edit1 (l ++ r) (l ++ c :: r)
  | edit_delete l c r : edit1 (l ++ c :: r) (l ++ r)
  | edit_substitute l c c' r : edit1 (l ++ c :: r) (l ++ c' :: r).

(** [transforms n x y]: [n] such operations, one after the other, turn
    [x] into [y]. *)
Inductive transforms : nat → jsstring → jsstring → Prop :=
  | transforms_0 x : transforms 0 x x
  | transforms_S n x y z : edit1 x y → transforms n y z → transforms (S n) x z.

(** No operation lowers the distance to a third string by more than
    one. *)
Definition near (x x' : jsstring) : Prop := ∀ z, lev x z ≤ S (lev x' z).

(** ** The matrix of [getLevenshteinDistance] *)

(** A matrix given by its rows. *)
Definition table (rowf : nat → list nat) (n : nat) : matrix_t :=
  rowf <$> seq 0 n.

(** The entry that row [i], column [j] must hold: the distance between
    the prefixes of lengths [j] and [i]. *)
Definition cell_of (a b : jsstring) (i j : nat) : nat :=
  lev (rev (take j a)) (rev (take i b)).

Definition full_row_of (a b : jsstring) (i : nat) : list nat :=
  cell_of a b i <$> seq 0 (S (length a)).

(** Rows below [i] are complete, row [i] is filled up to column [j],
    the rows after it still hold their first entry only. *)
Definition rows_at_of (a b : jsstring) (i j k : nat) : list nat :=
  if decide (k < i) then full_row_of a b k
  else if decide (k = i) then cell_of a b i <$> seq 0 j
  else [k].

(** ** The matching rule and the window search *)

(** The two tests made on a candidate [spokenWord]. *)
Definition exactMatch (targetWord spokenWord : jsstring) : bool :=
  bool_decide (spokenWord = targetWord).

Definition fuzzyMatch (targetWord spokenWord : jsstring) : bool :=
  match getLevenshteinDistance targetWord spokenWord with
  | Some dist => bool_decide (dist ≤ allowedEdits targetWord)
  | None => false
  end.

Definition accepts (targetWord spokenWord : jsstring) : bool :=
  exactMatch targetWord spokenWord || fuzzyMatch targetWord spokenWord.

(** The first index among [i], ..., [i + n - 1] whose word satisfies
    [P]. *)
Fixpoint find_from (P : jsstring → bool) (spokenWords : list jsstring)
    (n i : nat) : option nat :=
  match n with
  | 0 => None
  | S n' =>
    match spokenWords !! i with
    | None => None
    | Some w => if P w then Some i else find_from P spokenWords n' (S i)
    end
  end.

(** The number of candidates in the window that starts at [cursor]. *)
Definition window_size (spokenWords : list jsstring) (cursor : nat) : nat :=
  Nat.min (cursor + SEARCH_WINDOW) (length spokenWords) - cursor.

(** One scan of the window, for the first candidate that passes either
    test. *)
Definition search (targetWord : jsstring) (spokenWords : list jsstring)
    (cursor : nat) : option nat :=
  find_from (accepts targetWord) spokenWords
    (window_size spokenWords cursor) cursor.

(** The search as the specification words it: a scan for an exact match,
    and a second scan of the same window for a fuzzy match when the first
    one found none. *)
Definition spec_search (targetWord : jsstring) (spokenWords : list jsstring)
    (cursor : nat) : option nat :=
  match find_from (exactMatch targetWord) spokenWords
          (window_size spokenWords cursor) cursor with
  | Some k => Some k
  | None => find_from (fuzzyMatch targetWord) spokenWords
              (window_size spokenWords cursor) cursor
  end.

(** The state after a target word whose search gave [r]. *)
Definition after_search (st : Align) (r : option nat) : Align :=
  match r with
  | Some k =>
    {| matches := matches st + 1; spokenIdx := k + 1; foundMatch := true |}
  | None =>
    {| matches := matches st; spokenIdx := spokenIdx st;
       foundMatch := false |}
  end.

(** The states after each target word, in order. *)
Fixpoint align_trace (spokenWords : list jsstring) (st : Align)
    (targetWords : list jsstring) : list Align :=
  match targetWords with
  | [] => []
  | t :: targetWords' =>
    let st' := align_word spokenWords st t in
    st' :: align_trace spokenWords st' targetWords'
  end.

(** The index of the spoken word that a target word consumed, when it
    consumed one. *)
Definition consumed (st' : Align) : option nat :=
  if foundMatch st' then Some (spokenIdx st' - 1) else None.

Definition matched_indices (spokenWords : list jsstring) (st : Align)
    (targetWords : list jsstring) : list nat :=
  omap consumed (align_trace spokenWords st targetWords).

(** ** Fillers *)

(** [spokenWords] with [filler] inserted before index [p]. *)
Definition insert_at (p : nat) (filler : jsstring)
    (spokenWords : list jsstring) : list jsstring :=
  take p spokenWords ++ filler :: drop p spokenWords.

(** The filler matches no target word, exactly or within the threshold. *)
Definition unrelated (targetWords : list jsstring) (filler : jsstring)
    : Prop :=
  Forall (λ t, accepts t filler = false) targetWords.

(** The spoken word at index [p] is matched in the pass, by a search that
    starts at [cursor]. *)
Definition matched_from (targetWords spokenWords : list jsstring)
    (p cursor : nat) : Prop :=
  ∃ before t after,
    targetWords = before ++ t :: after
    ∧ spokenIdx (align_from spokenWords align_init before) = cursor
    ∧ search t spokenWords cursor = Some p.

(** The state with the cursor one place later. *)
Definition shift_cursor (st : Align) : Align :=
  {| matches := matches st; spokenIdx := spokenIdx st + 1;
     foundMatch := foundMatch st |}.

(** ** Normalized text *)

(** Every white-space code unit of [s] is a space that is followed by a
    code unit that is not white space, or, if [at_end] holds, by the end
    of the string. *)
Fixpoint spaced (at_end : Prop) (s : jsstring) : Prop :=
  match s with
  | [] => True
  | c :: r =>
    (isWhiteSpace c = true →
     c = space ∧ match r with
                 | [] => at_end
                 | d :: _ => isWhiteSpace d = false
                 end)
    ∧ spaced at_end r
  end.

(** The string does not begin with white space. *)
Definition starts_clean (s : jsstring) : Prop :=
  match s with
  | [] => True
  | c :: _ => isWhiteSpace c = false
  end.

(** [0-9a-z] *)
Definition isLowerAlnum (c : char) : bool :=
  ((48 <=? c) && (c <=? 57))%N || ((97 <=? c) && (c <=? 122))%N.

(** [A-Z] *)
Definition isUpper (c : char) : bool := ((65 <=? c) && (c <=? 90))%N.

(** ** Doubles *)

(** Doubles that are zero, positive or [+Infinity]. *)
Definition nonneg_double (x : double) : Prop :=
  match x with
  | S754_zero s | S754_infinity s | S754_finite s _ _ => s = false
  | S754_nan => False
  end.

(** The shift that brings a mantissa down to 53 bits. *)
Definition excess (m : Z) : Z := (Z.max 0 (Zdigits2 m - 53))%Z.

(** [round(m / n × 100)] as the specification writes it, in exact
    arithmetic, a half rounded up: the floor of [100 m / n + 1/2]. *)
Definition roundedPercent (m n : nat) : Z :=
  ((200 * Z.of_nat m + Z.of_nat n) `div` (2 * Z.of_nat n))%Z.

(** ** Example data *)

Definition one_four_target : list jsstring :=
  js <$> ["one"; "two"; "three"; "four"]%string.

Definition one_four_spoken : list jsstring := js <$> ["one"; "four"]%string.

Definition alphabet_target : list jsstring :=
  js <$> ["alpha"; "bravo"; "charlie"; "delta"]%string.

Definition alphabet_spoken : list jsstring :=
  js <$> ["xxxxxxxx"; "xxxxxxxx"; "xxxxxxxx"; "xxxxxxxx"; "xxxxxxxx";
          "alpha"; "bravo"; "charlie"; "delta"]%string.

Definition one_two_four_spoken : list jsstring :=
  js <$> ["one"; "two"; "four"]%string.

(** A passage of forty words, and its first twenty-three. *)
Definition forty_words : list jsstring := replicate 40 (js "la").

Definition twenty_three_words : list jsstring := replicate 23 (js "la").

Definition fresh_test (storyText spoken : string) : SkillTest :=
  {| speakingData := Some {| story := js storyText |};
     spokenText := js spoken; pronunciationScore := None;
     score := {| correct := 0; total := 0 |} |}.


(** ** Samples *)

(** [x] times [2^k], when that is an integer. *)
Definition scaled (k : Z) (x : spec_float) : option Z :=
  match x with
  | S754_zero _ => Some 0%Z
  | S754_finite s m e =>
    let n := if s then Z.neg m else Z.pos m in
    if (0 <=? e + k)%Z then Some (n * 2 ^ (e + k))%Z
    else if (n `mod` 2 ^ (- (e + k)) =? 0)%Z
         then Some (n `div` 2 ^ (- (e + k)))%Z
         else None
  | _ => None
  end.

(** A non-zero integer, from its sign and its magnitude. *)
Definition signed (s : bool) (p : positive) : Z :=
  if s then Z.neg p else Z.pos p.

(** * Properties *)

(** ** The loop combinator *)

Lemma for_loop_inv {St : Type} (Inv : nat → St → Prop)
    (body : nat → St → option St) (n i : nat) (s : St) :
  Inv i s →
  (∀ k t, i ≤ k < i + n → Inv k t → ∃ t', body k t = Some t' ∧ Inv (S k) t') →
  ∃ s', for_loop n i body s = Some s' ∧ Inv (i + n) s'.
Proof.
  revert i s. induction n as [|n IH]; intros i s Hi Hstep; simpl.
  - exists s. by rewrite Nat.add_0_r.
  - destruct (Hstep i s) as (t & Ht & Hinv); [lia | done |].
    rewrite Ht; simpl.
    destruct (IH (S i) t) as (s' & Hs' & Hinv'); [done | |].
    + intros k u Hk. apply Hstep. lia.
    + exists s'. split; [done |]. by replace (i + S n) with (S i + n) by lia.
Qed.

Lemma for_range_inv {St : Type} (Inv : nat → St → Prop)
    (body : nat → St → option St) (lo hi : nat) (s : St) :
  lo ≤ hi →
  Inv lo s →
  (∀ k t, lo ≤ k < hi → Inv k t → ∃ t', body k t = Some t' ∧ Inv (S k) t') →
  ∃ s', for_range lo hi body s = Some s' ∧ Inv hi s'.
Proof.
  intros Hle Hlo Hstep. unfold for_range.
  destruct (for_loop_inv Inv body (hi - lo) lo s) as (s' & Hs' & Hinv);
    [done | | ].
  - intros k t Hk. apply Hstep. lia.
  - exists s'. split; [done |]. by replace hi with (lo + (hi - lo)) by lia.
Qed.

(** ** Edit distance *)

Lemma lev_nil_r x : lev x [] = length x.
Proof. by destruct x. Qed.

Lemma lev_cons_cons c d x y :
  lev (c :: x) (d :: y) =
  if decide (c = d) then lev x y
  else S (Nat.min (lev x y) (Nat.min (lev x (d :: y)) (lev (c :: x) y))).
Proof. reflexivity. Qed.

Lemma lev_sym x y : lev x y = lev y x.
Proof.
  revert y. induction x as [|c x IHx]; intros y.
  - by rewrite lev_nil_r.
  - induction y as [|d y IHy]; [done |].
    rewrite !lev_cons_cons, <- IHy, IHx, (IHx (d :: y)).
    repeat case_decide; try congruence; lia.
Qed.

Lemma lev_refl x : lev x x = 0.
Proof.
  induction x as [|c x IH]; [done |].
  rewrite lev_cons_cons. by case_decide.
Qed.

(** Dropping the head of the second string changes the distance by at
    most one; so does dropping the head of the first. *)
Lemma lev_drop_l_of_r x :
  (∀ y d, lev x y ≤ S (lev x (d :: y))) →
  ∀ c y, lev (c :: x) y ≤ S (lev x y).
Proof.
  intros HP c y. induction y as [|d y IHy].
  - rewrite !lev_nil_r. simpl. lia.
  - rewrite lev_cons_cons. case_decide; [apply HP | lia].
Qed.

Lemma lev_cons_r_ge x y d : lev x y ≤ S (lev x (d :: y)).
Proof.
  revert y d. induction x as [|c x IHx]; intros y d.
  - simpl. lia.
  - rewrite lev_cons_cons.
    pose proof (lev_drop_l_of_r x IHx c y) as HQ.
    pose proof (IHx y d) as HP.
    case_decide; lia.
Qed.

Lemma lev_cons_l_le c x y : lev (c :: x) y ≤ S (lev x y).
Proof. apply lev_drop_l_of_r. intros; apply lev_cons_r_ge. Qed.

Lemma lev_cons_l_ge c x y : lev x y ≤ S (lev (c :: x) y).
Proof. rewrite (lev_sym x), (lev_sym (c :: x)). apply lev_cons_r_ge. Qed.

Lemma lev_cons_r_le d x y : lev x (d :: y) ≤ S (lev x y).
Proof. rewrite (lev_sym x), (lev_sym x y). apply lev_cons_l_le. Qed.

(** The recurrence as a minimum over the three last operations. *)
Lemma lev_cons_cons_min c d x y :
  lev (c :: x) (d :: y) =
  Nat.min (lev x y + (if decide (c = d) then 0 else 1))
    (Nat.min (S (lev x (d :: y))) (S (lev (c :: x) y))).
Proof.
  rewrite lev_cons_cons.
  pose proof (lev_cons_r_ge x y d). pose proof (lev_cons_l_ge c x y).
  case_decide; lia.
Qed.

Lemma edit1_cons c x y : edit1 x y → edit1 (c :: x) (c :: y).
Proof.
  intros [l d r|l d r|l d d' r].
  - apply (edit_insert (c :: l)).
  - apply (edit_delete (c :: l)).
  - apply (edit_substitute (c :: l)).
Qed.

Lemma edit1_sym x y : edit1 x y → edit1 y x.
Proof. intros [l d r|l d r|l d d' r]; constructor. Qed.

Lemma edit1_rev x y : edit1 x y → edit1 (rev x) (rev y).
Proof.
  intros [l d r|l d r|l d d' r]; rewrite !rev_app_distr; simpl;
    rewrite <- ?app_assoc; simpl; constructor.
Qed.

Lemma transforms_1 x y : edit1 x y → transforms 1 x y.
Proof. intros. eapply transforms_S; [done | constructor]. Qed.

Lemma transforms_app n m x y z :
  transforms n x y → transforms m y z → transforms (n + m) x z.
Proof.
  induction 1 as [|n x y' y Hxy _ IH]; intros Hz; [done |].
  simpl. eapply transforms_S; [done | by apply IH].
Qed.

Lemma transforms_cons n c x y :
  transforms n x y → transforms n (c :: x) (c :: y).
Proof.
  induction 1 as [|n x y z Hxy _ IH]; [constructor |].
  eapply transforms_S; [by apply edit1_cons | done].
Qed.

Lemma transforms_sym n x y : transforms n x y → transforms n y x.
Proof.
  induction 1 as [|n x y z Hxy _ IH]; [constructor |].
  replace (S n) with (n + 1) by lia.
  eapply transforms_app; [done |]. by apply transforms_1, edit1_sym.
Qed.

Lemma transforms_rev n x y : transforms n x y → transforms n (rev x) (rev y).
Proof.
  induction 1 as [|n x y z Hxy _ IH]; [constructor |].
  eapply transforms_S; [by apply edit1_rev | done].
Qed.

Lemma transforms_insert_all y : transforms (length y) [] y.
Proof.
  induction y as [|d y IH]; [constructor |].
  simpl. eapply transforms_S; [apply (edit_insert [] d []) |].
  by apply transforms_cons.
Qed.

(** [lev x y] operations suffice. *)
Lemma lev_transforms x y : transforms (lev x y) x y.
Proof.
  revert y. induction x as [|c x IHx]; intros y.
  - apply transforms_insert_all.
  - induction y as [|d y IHy].
    + rewrite lev_nil_r. apply transforms_sym, transforms_insert_all.
    + rewrite lev_cons_cons. case_decide as Hcd.
      * subst d. apply transforms_cons, IHx.
      * destruct (Nat.min_spec (lev x y)
                    (Nat.min (lev x (d :: y)) (lev (c :: x) y)))
          as [[_ ->]|[_ ->]].
        { eapply transforms_S; [apply (edit_substitute [] c d x) |].
          apply transforms_cons, IHx. }
        destruct (Nat.min_spec (lev x (d :: y)) (lev (c :: x) y))
          as [[_ ->]|[_ ->]].
        { eapply transforms_S; [apply (edit_delete [] c x) |]. apply IHx. }
        replace (S (lev (c :: x) y)) with (lev (c :: x) y + 1) by lia.
        eapply transforms_app; [apply IHy |].
        apply transforms_1, (edit_insert [] d y).
Qed.

Lemma near_cons c x x' : near x x' → near (c :: x) (c :: x').
Proof.
  intros Hn z. induction z as [|d z IHz].
  - rewrite !lev_nil_r. specialize (Hn []). rewrite !lev_nil_r in Hn.
    simpl. lia.
  - rewrite !lev_cons_cons_min.
    pose proof (Hn z). pose proof (Hn (d :: z)). lia.
Qed.

Lemma near_substitute c c' x : near (c :: x) (c' :: x).
Proof.
  intros z. induction z as [|d z IHz].
  - rewrite !lev_nil_r. simpl. lia.
  - rewrite !lev_cons_cons_min. repeat case_decide; lia.
Qed.

Lemma edit1_near x x' : edit1 x x' → near x x'.
Proof.
  intros [l d r|l d r|l d d' r]; induction l as [|c l IH]; simpl;
    try (by apply near_cons).
  - intros z. apply lev_cons_l_ge.
  - intros z. apply lev_cons_l_le.
  - apply near_substitute.
Qed.

(** Fewer than [lev x y] operations do not suffice. *)
Lemma transforms_lev n x y : transforms n x y → lev x y ≤ n.
Proof.
  induction 1 as [x|n x y z Hxy _ IH].
  - by rewrite lev_refl.
  - pose proof (edit1_near _ _ Hxy z). lia.
Qed.

Lemma lev_rev x y : lev (rev x) (rev y) = lev x y.
Proof.
  apply Nat.le_antisymm.
  - apply transforms_lev, transforms_rev, lev_transforms.
  - rewrite <- (rev_involutive x), <- (rev_involutive y) at 1.
    apply transforms_lev, transforms_rev, lev_transforms.
Qed.

(** ** The matrix of [getLevenshteinDistance] *)

Lemma table_length rowf n : length (table rowf n) = n.
Proof. unfold table. by rewrite length_fmap, length_seq. Qed.

Lemma table_lookup rowf n k : k < n → table rowf n !! k = Some (rowf k).
Proof.
  intros Hk. unfold table. rewrite list_lookup_fmap, lookup_seq_lt; done.
Qed.

Lemma table_ext rowf rowg n :
  (∀ k, k < n → rowf k = rowg k) → table rowf n = table rowg n.
Proof.
  intros Hfg. apply list_eq; intros k.
  destruct (decide (k < n)) as [Hk|Hk].
  - rewrite !table_lookup by done. f_equal. by apply Hfg.
  - rewrite !lookup_ge_None_2; [done | |]; rewrite table_length; lia.
Qed.

Lemma table_insert rowf n k r :
  <[k:=r]> (table rowf n) =
  table (λ i, if decide (i = k) then r else rowf i) n.
Proof.
  apply list_eq; intros i.
  destruct (decide (i < n)) as [Hi|Hi].
  - rewrite table_lookup by done.
    destruct (decide (i = k)) as [->|Hne].
    + rewrite list_lookup_insert_eq; [done | by rewrite table_length].
    + rewrite list_lookup_insert_ne by done. by apply table_lookup.
  - rewrite !lookup_ge_None_2; [done | |];
      rewrite ?length_insert, table_length; lia.
Qed.

Lemma table_snoc rowf n : table rowf n ++ [rowf n] = table rowf (S n).
Proof. unfold table. by rewrite seq_S, fmap_app. Qed.

Lemma arr_set_snoc {A : Type} (arr : list A) (v : A) :
  arr_set arr (length arr) v = Some (arr ++ [v]).
Proof.
  unfold arr_set. destruct (decide (length arr < length arr)); [lia |].
  by rewrite decide_True.
Qed.

Lemma fmap_seq_snoc {A : Type} (f : nat → A) (n : nat) :
  (f <$> seq 0 n) ++ [f n] = f <$> seq 0 (S n).
Proof. by rewrite seq_S, fmap_app. Qed.

Lemma fmap_seq_lookup {A : Type} (f : nat → A) (n k : nat) :
  k < n → (f <$> seq 0 n) !! k = Some (f k).
Proof. intros. rewrite list_lookup_fmap, lookup_seq_lt; done. Qed.

(** Reduce a bind on a known [Some]. *)
Ltac simpl_bind := cbn [mbind option_bind].

Section Matrix.

Variables a b : jsstring.

Local Abbreviation cell := (cell_of a b).
Local Abbreviation full_row := (full_row_of a b).
Local Abbreviation rows_at := (rows_at_of a b).

Lemma cell_0_l j : j ≤ length a → cell 0 j = j.
Proof.
  intros Hj. unfold cell_of. rewrite take_0. simpl.
  rewrite lev_nil_r, length_rev, length_take. lia.
Qed.

Lemma cell_0_r i : i ≤ length b → cell i 0 = i.
Proof.
  intros Hi. unfold cell_of. rewrite take_0. simpl.
  rewrite length_rev, length_take. lia.
Qed.

Lemma cell_S_S i j ac bc :
  a !! j = Some ac → b !! i = Some bc →
  cell (S i) (S j) =
  if decide (ac = bc) then cell i j
  else S (Nat.min (cell i j) (Nat.min (cell (S i) j) (cell i (S j)))).
Proof.
  intros Ha Hb. unfold cell_of.
  rewrite (take_S_r a j ac), (take_S_r b i bc) by done.
  rewrite !rev_app_distr. simpl. apply lev_cons_cons.
Qed.

Lemma rows_at_lt i j k : k < i → rows_at i j k = full_row k.
Proof. intros. unfold rows_at_of. by rewrite decide_True. Qed.

Lemma rows_at_eq i j : rows_at i j i = cell i <$> seq 0 j.
Proof. unfold rows_at_of. rewrite decide_False, decide_True; [done.. | lia]. Qed.

Lemma rows_at_gt i j k : i < k → rows_at i j k = [k].
Proof. intros. unfold rows_at_of. by rewrite !decide_False by lia. Qed.

Lemma lev_cell_step i j matrix :
  1 ≤ i ≤ length b → 1 ≤ j ≤ length a →
  matrix = table (rows_at i j) (S (length b)) →
  lev_cell a b i j matrix = Some (table (rows_at i (S j)) (S (length b))).
Proof.
  intros Hi Hj ->.
  destruct i as [|i]; [lia |]. destruct j as [|j]; [lia |].
  destruct (lookup_lt_is_Some_2 a j) as [ac Hac]; [lia |].
  destruct (lookup_lt_is_Some_2 b i) as [bc Hbc]; [lia |].
  assert (Hdiag : mat_get (table (rows_at (S i) (S j)) (S (length b))) i j
                  = Some (cell i j)).
  { unfold mat_get. rewrite table_lookup by lia. simpl_bind.
    rewrite rows_at_lt by lia.
    unfold full_row_of. apply fmap_seq_lookup. lia. }
  assert (Hleft : mat_get (table (rows_at (S i) (S j)) (S (length b))) (S i) j
                  = Some (cell (S i) j)).
  { unfold mat_get. rewrite table_lookup by lia. simpl_bind.
    rewrite rows_at_eq. apply fmap_seq_lookup. lia. }
  assert (Hup : mat_get (table (rows_at (S i) (S j)) (S (length b))) i (S j)
                = Some (cell i (S j))).
  { unfold mat_get. rewrite table_lookup by lia. simpl_bind.
    rewrite rows_at_lt by lia.
    unfold full_row_of. apply fmap_seq_lookup. lia. }
  assert (Hset : ∀ v, v = cell (S i) (S j) →
    mat_set (table (rows_at (S i) (S j)) (S (length b))) (S i) (S j) v
    = Some (table (rows_at (S i) (S (S j))) (S (length b)))).
  { intros v ->. unfold mat_set. rewrite table_lookup by lia. simpl_bind.
    rewrite rows_at_eq.
    replace (arr_set (cell (S i) <$> seq 0 (S j)) (S j) (cell (S i) (S j)))
      with (Some ((cell (S i) <$> seq 0 (S j)) ++ [cell (S i) (S j)])).
    2:{ symmetry. rewrite <- arr_set_snoc. f_equal.
        by rewrite length_fmap, length_seq. }
    simpl_bind. f_equal. rewrite table_insert. apply table_ext.
    intros k Hk. case_decide as Hk'.
    + subst k. by rewrite rows_at_eq, fmap_seq_snoc.
    + destruct (decide (k < S i)).
      * by rewrite !rows_at_lt by done.
      * by rewrite !rows_at_gt by lia. }
  unfold lev_cell, charAt. rewrite !Nat.sub_succ, !Nat.sub_0_r.
  rewrite Hac, Hbc, Hdiag, Hleft, Hup. simpl_bind.
  destruct (decide (Some bc = Some ac)) as [Heq|Hne]; apply Hset;
    rewrite (cell_S_S i j ac bc) by done.
  - simplify_eq. by rewrite decide_True.
  - rewrite decide_False by congruence. lia.
Qed.

Lemma lev_row_step i matrix :
  1 ≤ i ≤ length b →
  matrix = table (rows_at i 1) (S (length b)) →
  lev_row a b i matrix = Some (table (rows_at (S i) 1) (S (length b))).
Proof.
  intros Hi ->. unfold lev_row.
  destruct (for_range_inv
    (λ j m, m = table (rows_at i j) (S (length b)))
    (lev_cell a b i) 1 (S (length a)) (table (rows_at i 1) (S (length b))))
    as (m & Hm & ->); [lia | done | |].
  - intros j m Hj ->. eexists. split; [| done].
    apply lev_cell_step; [done | lia | done].
  - rewrite Hm. f_equal. apply table_ext. intros k Hk.
    destruct (lt_eq_lt_dec k i) as [[Hlt| ->]|Hgt].
    + by rewrite !rows_at_lt by lia.
    + by rewrite rows_at_eq, rows_at_lt by lia.
    + rewrite rows_at_gt by done.
      destruct (decide (k = S i)) as [->|Hne].
      * rewrite rows_at_eq. simpl. by rewrite cell_0_r by lia.
      * by rewrite rows_at_gt by lia.
Qed.

Lemma lev_rows_init :
  for_range 0 (S (length b)) (λ i matrix, arr_set matrix i [i]) []
  = Some (table (λ k, [k]) (S (length b))).
Proof.
  destruct (for_range_inv (λ i m, m = table (λ k, [k]) i)
    (λ i (matrix : matrix_t), arr_set matrix i [i]) 0 (S (length b)) [])
    as (m & Hm & ->); [lia | done | | done].
  intros i m _ ->. eexists. split; [| done].
  rewrite <- (table_snoc (λ k, [k])).
  rewrite <- (table_length (λ k, [k]) i) at 2. apply arr_set_snoc.
Qed.

Lemma lev_first_row :
  for_range 0 (S (length a)) (λ j matrix, mat_set matrix 0 j j)
    (table (λ k, [k]) (S (length b)))
  = Some (table (rows_at 1 1) (S (length b))).
Proof.
  set (row0 j k := if decide (k = 0) then seq 0 (Nat.max 1 j) else [k]).
  destruct (for_range_inv (λ j m, m = table (row0 j) (S (length b)))
    (λ j matrix, mat_set matrix 0 j j) 0 (S (length a))
    (table (λ k, [k]) (S (length b)))) as (m & Hm & ->); [lia | | |].
  - apply table_ext. intros k _. unfold row0. by case_decide; subst.
  - intros j m _ ->. eexists. split; [| done].
    unfold mat_set. rewrite table_lookup by lia. simpl_bind.
    change (row0 j 0) with (seq 0 (Nat.max 1 j)).
    destruct j as [|j].
    + change (arr_set (seq 0 (Nat.max 1 0)) 0 0) with (Some [0]).
      reflexivity.
    + replace (Nat.max 1 (S j)) with (S j) by lia.
      replace (arr_set (seq 0 (S j)) (S j) (S j))
        with (Some (seq 0 (S j) ++ [S j])).
      2:{ symmetry. rewrite <- arr_set_snoc. f_equal.
          by rewrite length_seq. }
      simpl_bind. f_equal. rewrite table_insert. apply table_ext.
      intros k _. unfold row0. case_decide; [| done].
      replace (Nat.max 1 (S (S j))) with (S (S j)) by lia.
      by rewrite (seq_S (S j)).
  - rewrite Hm. f_equal. apply table_ext. intros k Hk. unfold row0.
    case_decide as Hk0.
    + subst k. rewrite rows_at_lt by lia. unfold full_row_of.
      replace (Nat.max 1 (S (length a))) with (S (length a)) by lia.
      apply list_eq; intros j.
      destruct (decide (j < S (length a))) as [Hj|Hj].
      * rewrite fmap_seq_lookup, lookup_seq_lt by done.
        simpl. f_equal. symmetry. apply cell_0_l. lia.
      * rewrite !lookup_ge_None_2; [done | |];
          rewrite ?length_fmap, length_seq; lia.
    + destruct (decide (k = 1)) as [->|Hk1].
      * rewrite rows_at_eq. simpl. by rewrite cell_0_r by lia.
      * by rewrite rows_at_gt by lia.
Qed.

Lemma lev_all_rows :
  for_range 1 (S (length b)) (lev_row a b)
    (table (rows_at 1 1) (S (length b)))
  = Some (table (rows_at (S (length b)) 1) (S (length b))).
Proof.
  destruct (for_range_inv (λ i m, m = table (rows_at i 1) (S (length b)))
    (lev_row a b) 1 (S (length b)) (table (rows_at 1 1) (S (length b))))
    as (m & Hm & ->); [lia | done | | done].
  intros i m Hi ->. eexists. split; [| done].
  apply lev_row_step; [lia | done].
Qed.

(** The function returns, and returns the entry for the whole strings. *)
Lemma getLevenshteinDistance_lev :
  getLevenshteinDistance a b = Some (lev a b).
Proof.
  unfold getLevenshteinDistance.
  case_decide as Ha.
  { apply nil_length_inv in Ha. by subst. }
  case_decide as Hb.
  { apply nil_length_inv in Hb. subst. by rewrite lev_nil_r. }
  rewrite lev_rows_init. simpl_bind. rewrite lev_first_row. simpl_bind.
  rewrite lev_all_rows. simpl_bind.
  unfold mat_get. rewrite table_lookup by lia. simpl_bind.
  rewrite rows_at_lt by lia.
  unfold full_row_of. rewrite fmap_seq_lookup by lia.
  unfold cell_of. by rewrite !firstn_all, lev_rev.
Qed.

End Matrix.

(** ** The matching rule *)

Lemma allowedEdits_pos t : 1 ≤ allowedEdits t.
Proof. unfold allowedEdits. case_decide; lia. Qed.

Lemma fuzzyMatch_lev t w :
  fuzzyMatch t w = bool_decide (lev t w ≤ allowedEdits t).
Proof. unfold fuzzyMatch. by rewrite getLevenshteinDistance_lev. Qed.

Lemma exactMatch_fuzzyMatch t w :
  exactMatch t w = true → fuzzyMatch t w = true.
Proof.
  unfold exactMatch. rewrite fuzzyMatch_lev. intros Heq.
  apply bool_decide_eq_true in Heq as ->. apply bool_decide_eq_true.
  rewrite lev_refl. pose proof (allowedEdits_pos t). lia.
Qed.

Lemma accepts_fuzzyMatch t w : accepts t w = fuzzyMatch t w.
Proof.
  unfold accepts. destruct (exactMatch t w) eqn:He; [| done].
  by rewrite (exactMatch_fuzzyMatch t w He).
Qed.

Lemma accepts_lev t w : accepts t w = true ↔ lev t w ≤ allowedEdits t.
Proof. rewrite accepts_fuzzyMatch, fuzzyMatch_lev. apply bool_decide_eq_true. Qed.

(** ** The window search *)

Lemma find_from_Some P S n i k :
  find_from P S n i = Some k ↔
  i ≤ k < i + n
  ∧ (∃ w, S !! k = Some w ∧ P w = true)
  ∧ (∀ k' w', i ≤ k' < k → S !! k' = Some w' → P w' = false).
Proof.
  revert i. induction n as [|n IH]; intros i; simpl.
  - split; [done | lia].
  - destruct (S !! i) as [w|] eqn:Hw.
    + destruct (P w) eqn:HP.
      * split.
        { intros [= <-]. split; [lia |]. split; [eauto |]. lia. }
        intros (Hk & (w' & Hw' & HP') & Hmin).
        destruct (decide (k = i)) as [->|Hne]; [done |].
        rewrite (Hmin i w) in HP; [done | lia | done].
      * rewrite IH. split.
        { intros (Hk & Hex & Hmin). split; [lia |]. split; [done |].
          intros k' w' Hk' Hw'.
          destruct (decide (k' = i)) as [->|Hne]; [congruence |].
          apply (Hmin k'); [lia | done]. }
        intros (Hk & (w' & Hw' & HP') & Hmin).
        assert (k ≠ i) by (intros ->; congruence).
        split; [lia |]. split; [eauto |].
        intros k' w'' Hk'. apply Hmin. lia.
    + split; [done |].
      intros (Hk & (w' & Hw' & HP') & Hmin).
      apply lookup_lt_Some in Hw'. apply lookup_ge_None in Hw. lia.
Qed.

Lemma find_from_None P S n i :
  i + n ≤ length S →
  find_from P S n i = None ↔
  (∀ k w, i ≤ k < i + n → S !! k = Some w → P w = false).
Proof.
  revert i. induction n as [|n IH]; intros i Hlen; simpl.
  - split; [lia | done].
  - destruct (lookup_lt_is_Some_2 S i) as [w Hw]; [lia |]. rewrite Hw.
    destruct (P w) eqn:HP.
    + split; [done |]. intros Hall. rewrite (Hall i w) in HP; [done | lia | done].
    + rewrite IH by lia. split.
      * intros Hall k w' Hk Hw'.
        destruct (decide (k = i)) as [->|Hne]; [congruence |].
        apply (Hall k); [lia | done].
      * intros Hall k w' Hk. apply Hall. lia.
Qed.

Lemma window_size_le S c : c + window_size S c ≤ Nat.max c (length S).
Proof. unfold window_size. lia. Qed.

Lemma window_bounds S c k :
  c ≤ k < c + window_size S c ↔ c ≤ k < Nat.min (c + SEARCH_WINDOW) (length S).
Proof. unfold window_size. lia. Qed.

Lemma search_Some t S c k :
  search t S c = Some k ↔
  c ≤ k < Nat.min (c + SEARCH_WINDOW) (length S)
  ∧ (∃ w, S !! k = Some w ∧ accepts t w = true)
  ∧ (∀ k' w', c ≤ k' < k → S !! k' = Some w' → accepts t w' = false).
Proof. unfold search. by rewrite find_from_Some, window_bounds. Qed.

Lemma search_None t S c :
  search t S c = None ↔
  (∀ k w, c ≤ k < Nat.min (c + SEARCH_WINDOW) (length S) →
          S !! k = Some w → accepts t w = false).
Proof.
  unfold search. destruct (decide (c ≤ length S)) as [Hc|Hc].
  - rewrite find_from_None by (unfold window_size; lia).
    by setoid_rewrite window_bounds.
  - replace (window_size S c) with 0 by (unfold window_size; lia).
    simpl. split; [lia | done].
Qed.

(** The loop of the source is this search. *)
Lemma window_loop_find t S n i st :
  window_loop t S n i st =
  match find_from (accepts t) S n i with
  | Some k => matched st k
  | None => st
  end.
Proof.
  revert i. induction n as [|n IH]; intros i; simpl; [done |].
  destruct (S !! i) as [w|]; [| done].
  unfold accepts at 1, exactMatch, fuzzyMatch.
  case_decide as Heq.
  - by rewrite bool_decide_eq_true_2.
  - rewrite bool_decide_eq_false_2 by done. simpl.
    destruct (getLevenshteinDistance t w) as [dist|]; [| apply IH].
    case_decide.
    + by rewrite bool_decide_eq_true_2.
    + rewrite bool_decide_eq_false_2 by done. apply IH.
Qed.

Lemma align_word_search S st t :
  align_word S st t = after_search st (search t S (spokenIdx st)).
Proof.
  unfold align_word, search, window_size. simpl.
  rewrite window_loop_find. by destruct (find_from _ _ _ _).
Qed.

Lemma align_from_cons S st t T :
  align_from S st (t :: T) = align_from S (align_word S st t) T.
Proof. reflexivity. Qed.

Lemma align_from_app S st T1 T2 :
  align_from S st (T1 ++ T2) = align_from S (align_from S st T1) T2.
Proof. apply foldl_app. Qed.

Lemma align_word_cursor_le S st t :
  spokenIdx st ≤ spokenIdx (align_word S st t).
Proof.
  rewrite align_word_search.
  destruct (search t S (spokenIdx st)) as [k|] eqn:Hs; simpl; [| done].
  apply search_Some in Hs. lia.
Qed.

Lemma align_from_cursor_le S st T :
  spokenIdx st ≤ spokenIdx (align_from S st T).
Proof.
  revert st. induction T as [|t T IH]; intros st; [done |].
  rewrite align_from_cons. etrans; [apply (align_word_cursor_le S st t) | apply IH].
Qed.

(** ** A filler in the spoken words *)

Section Filler.

Variables (S : list jsstring) (f : jsstring) (p : nat).
Hypothesis Hp : p ≤ length S.

Local Abbreviation S' := (insert_at p f S).

Lemma insert_at_length : length S' = length S + 1.
Proof.
  unfold insert_at. rewrite length_app, length_take. simpl.
  rewrite length_drop. lia.
Qed.

Lemma insert_at_lookup_lt k : k < p → S' !! k = S !! k.
Proof.
  intros Hk. unfold insert_at.
  rewrite lookup_app_l by (rewrite length_take; lia).
  by rewrite lookup_take_lt.
Qed.

Lemma insert_at_lookup_eq : S' !! p = Some f.
Proof.
  unfold insert_at. rewrite lookup_app_r by (rewrite length_take; lia).
  rewrite length_take. by replace (p - p `min` length S) with 0 by lia.
Qed.

Lemma insert_at_lookup_gt k : p ≤ k → S' !! (k + 1) = S !! k.
Proof.
  intros Hk. unfold insert_at.
  rewrite lookup_app_r by (rewrite length_take; lia).
  rewrite length_take.
  replace (k + 1 - p `min` length S) with (Datatypes.S (k - p)) by lia.
  simpl. rewrite lookup_drop. f_equal. lia.
Qed.

(** A search that starts at or before the filler and finds nothing
    still finds nothing. *)
Lemma search_miss_kept t c :
  c ≤ p → accepts t f = false →
  search t S c = None → search t S' c = None.
Proof.
  intros Hc Hf Hmiss. rewrite search_None in Hmiss. apply search_None.
  rewrite insert_at_length. intros k w Hk Hw.
  destruct (lt_eq_lt_dec k p) as [[Hlt| ->]|Hgt].
  - rewrite insert_at_lookup_lt in Hw by done.
    apply (Hmiss k); [| done]. apply lookup_lt_Some in Hw. lia.
  - rewrite insert_at_lookup_eq in Hw. congruence.
  - replace k with (k - 1 + 1) in Hw by lia.
    rewrite insert_at_lookup_gt in Hw by lia.
    apply (Hmiss (k - 1)); [| done]. apply lookup_lt_Some in Hw. lia.
Qed.

(** A match before the filler is found as before. *)
Lemma search_hit_before t c k :
  k < p → search t S c = Some k → search t S' c = Some k.
Proof.
  intros Hk Hhit. rewrite search_Some in Hhit. apply search_Some.
  destruct Hhit as (Hwin & (w & Hw & Hacc) & Hmin).
  rewrite insert_at_length. split; [lia |]. split.
  - exists w. by rewrite insert_at_lookup_lt.
  - intros k' w' Hk' Hw'. rewrite insert_at_lookup_lt in Hw' by lia.
    by apply (Hmin k').
Qed.

(** A match at or after the filler is found one place later, if that
    place is still in the window. *)
Lemma search_hit_shifted t c k :
  c ≤ p ≤ k → k + 1 < c + SEARCH_WINDOW → accepts t f = false →
  search t S c = Some k → search t S' c = Some (k + 1).
Proof.
  intros Hc Hin Hf Hhit. rewrite search_Some in Hhit. apply search_Some.
  destruct Hhit as (Hwin & (w & Hw & Hacc) & Hmin).
  rewrite insert_at_length. split; [lia |]. split.
  - exists w. by rewrite insert_at_lookup_gt by lia.
  - intros k' w' Hk' Hw'.
    destruct (lt_eq_lt_dec k' p) as [[Hlt| ->]|Hgt].
    + rewrite insert_at_lookup_lt in Hw' by done.
      apply (Hmin k'); [lia | done].
    + rewrite insert_at_lookup_eq in Hw'. congruence.
    + replace k' with (k' - 1 + 1) in Hw' by lia.
      rewrite insert_at_lookup_gt in Hw' by lia.
      apply (Hmin (k' - 1)); [lia | done].
Qed.

(** A search that starts after the filler sees the window of the search
    one place earlier in the original words. *)
Lemma search_after t c :
  p ≤ c → search t S' (c + 1) = (λ k, k + 1) <$> search t S c.
Proof.
  intros Hc. destruct (search t S c) as [k|] eqn:Hs; simpl.
  - rewrite search_Some in Hs. apply search_Some.
    destruct Hs as (Hwin & (w & Hw & Hacc) & Hmin).
    rewrite insert_at_length. split; [lia |]. split.
    + exists w. by rewrite insert_at_lookup_gt by lia.
    + intros k' w' Hk' Hw'. replace k' with (k' - 1 + 1) in Hw' by lia.
      rewrite insert_at_lookup_gt in Hw' by lia.
      apply (Hmin (k' - 1)); [lia | done].
  - rewrite search_None in Hs. apply search_None.
    rewrite insert_at_length. intros k w Hk Hw.
    replace k with (k - 1 + 1) in Hw by lia.
    rewrite insert_at_lookup_gt in Hw by lia.
    apply (Hs (k - 1)); [lia | done].
Qed.

Lemma align_word_after st t :
  p ≤ spokenIdx st →
  align_word S' (shift_cursor st) t = shift_cursor (align_word S st t).
Proof.
  intros Hc. rewrite !align_word_search. simpl.
  rewrite search_after by done.
  by destruct (search t S (spokenIdx st)).
Qed.

Lemma align_from_after T st :
  p ≤ spokenIdx st →
  align_from S' (shift_cursor st) T = shift_cursor (align_from S st T).
Proof.
  revert st. induction T as [|t T IH]; intros st Hc; [done |].
  rewrite !align_from_cons, align_word_after by done.
  apply IH. etrans; [done | apply align_word_cursor_le].
Qed.

Lemma align_word_before st t :
  accepts t f = false →
  spokenIdx (align_word S st t) ≤ p →
  align_word S' st t = align_word S st t.
Proof.
  intros Hf. rewrite !align_word_search.
  destruct (search t S (spokenIdx st)) as [k|] eqn:Hs; simpl; intros Hc.
  - by rewrite (search_hit_before t _ k) by (done || lia).
  - by rewrite search_miss_kept.
Qed.

Lemma align_from_before T st :
  unrelated T f →
  spokenIdx (align_from S st T) ≤ p →
  align_from S' st T = align_from S st T.
Proof.
  revert st. induction T as [|t T IH]; intros st Hf Hc; [done |].
  rewrite !align_from_cons in *.
  assert (spokenIdx (align_word S st t) ≤ p) as Hc1.
  { etrans; [apply align_from_cursor_le | done]. }
  apply Forall_cons in Hf as [Hft HfT].
  rewrite align_word_before by done.
  by apply IH.
Qed.

End Filler.

(** ** The pass over the target words *)

Lemma accepts_spec t w :
  accepts t w = true ↔
  w = t ∨ ∃ d, getLevenshteinDistance t w = Some d ∧ d ≤ allowedEdits t.
Proof.
  unfold accepts, exactMatch, fuzzyMatch.
  rewrite orb_true_iff, bool_decide_eq_true, getLevenshteinDistance_lev.
  rewrite bool_decide_eq_true. split.
  - intros [->|Hd]; [by left | right; eauto].
  - intros [->|(d & [= <-] & Hd)]; [by left | by right].
Qed.

Lemma accepts_false_spec t w :
  accepts t w = false ↔
  w ≠ t ∧ ∀ d, getLevenshteinDistance t w = Some d → ¬ d ≤ allowedEdits t.
Proof.
  rewrite <- not_true_iff_false, accepts_spec. split.
  - intros Hno. split; [intros ->; apply Hno; by left |].
    intros d Hd Hle. apply Hno. right. eauto.
  - intros [Hne Hno] [->|(d & Hd & Hle)]; [done | by apply (Hno d)].
Qed.

Lemma find_from_ext P Q S n i :
  (∀ w, P w = Q w) → find_from P S n i = find_from Q S n i.
Proof.
  intros HPQ. revert i. induction n as [|n IH]; intros i; simpl; [done |].
  destruct (S !! i) as [w|]; [| done]. by rewrite HPQ, IH.
Qed.

Lemma consumed_after_search st r : consumed (after_search st r) = r.
Proof.
  destruct r as [k|]; unfold consumed; simpl; [| done].
  by rewrite Nat.add_sub.
Qed.

Lemma matched_indices_cons S st t T :
  matched_indices S st (t :: T) =
  match search t S (spokenIdx st) with
  | Some k => k :: matched_indices S (align_word S st t) T
  | None => matched_indices S (align_word S st t) T
  end.
Proof.
  unfold matched_indices. simpl.
  rewrite (align_word_search S st t) at 1.
  by rewrite consumed_after_search.
Qed.

Lemma matched_indices_sorted S T st :
  Forall (λ k, spokenIdx st ≤ k) (matched_indices S st T)
  ∧ StronglySorted lt (matched_indices S st T).
Proof.
  revert st. induction T as [|t T IH]; intros st.
  - split; constructor.
  - rewrite matched_indices_cons.
    destruct (IH (align_word S st t)) as [Hall Hsorted].
    pose proof (align_word_cursor_le S st t) as Hle.
    destruct (search t S (spokenIdx st)) as [k|] eqn:Hs.
    + assert (spokenIdx (align_word S st t) = k + 1) as Hk.
      { by rewrite align_word_search, Hs. }
      apply search_Some in Hs. split.
      * constructor; [lia |].
        eapply Forall_impl; [apply Hall |]. simpl. lia.
      * constructor; [done |].
        eapply Forall_impl; [apply Hall |]. simpl. lia.
    + split; [| done].
      eapply Forall_impl; [apply Hall |]. simpl. lia.
Qed.

Lemma align_trace_last S T st :
  last (st :: align_trace S st T) = Some (align_from S st T).
Proof.
  revert st. induction T as [|t T IH]; intros st; [done |].
  rewrite align_from_cons, <- IH. reflexivity.
Qed.

Lemma align_trace_lookup S T st i :
  (st :: align_trace S st T) !! i = Some (align_from S st (take i T))
  ∨ length T < i.
Proof.
  revert st T. induction i as [|i IH]; intros st T; [by left |].
  destruct T as [|t T]; [right; simpl; lia |].
  destruct (IH (align_word S st t) T) as [Hi|Hi]; [by left | right; simpl; lia].
Qed.

Lemma align_trace_lookup_Some S T st i st' :
  (st :: align_trace S st T) !! i = Some st' →
  i ≤ length T ∧ st' = align_from S st (take i T).
Proof.
  revert st T. induction i as [|i IH]; intros st T.
  - intros [= <-]. split; [lia | done].
  - destruct T as [|t T]; [done |]. simpl.
    intros Hi. apply IH in Hi as [Hlen ->]. split; [lia | done].
Qed.

Lemma matches_le_length S T st :
  matches (align_from S st T) ≤ matches st + length T.
Proof.
  revert st. induction T as [|t T IH]; intros st; simpl; [lia |].
  fold (align_from S (align_word S st t) T).
  etrans; [apply IH |]. rewrite align_word_search.
  destruct (search t S (spokenIdx st)); simpl; lia.
Qed.

(** ** Double-precision arithmetic *)

Local Open Scope Z_scope.

Lemma digits2_pos_iter_xO p k :
  digits2_pos (Pos.iter xO p k) = (digits2_pos p + k)%positive.
Proof.
  induction k as [|k IH] using Pos.peano_ind.
  - simpl. lia.
  - rewrite Pos.iter_succ. simpl. rewrite IH. lia.
Qed.

Lemma digits2_pos_bound p (n : nat) :
  Z.pos p < 2 ^ Z.of_nat n → Z.pos (digits2_pos p) ≤ Z.of_nat n.
Proof.
  revert n. induction p as [p IH|p IH|]; intros n Hp; simpl;
    (destruct n as [|n]; [simpl in Hp; lia |]);
    try (rewrite Nat2Z.inj_succ, Z.pow_succ_r in Hp by lia;
         specialize (IH n); lia).
  lia.
Qed.

Lemma binary_round_aux_exact s m e :
  Z.pos (digits2_pos m) = 53 → -1074 ≤ e ≤ 971 →
  binary_round_aux 53 1024 s (Z.pos m) e loc_Exact = S754_finite s m e.
Proof.
  intros Hd He.
  assert (Hshr : shr_fexp 53 1024 (Z.pos m) e loc_Exact
                 = ({| shr_m := Z.pos m; shr_r := false; shr_s := false |}, e)).
  { unfold shr_fexp, fexp, emin, Zdigits2. rewrite Hd.
    replace (Z.max (53 + e - 53) (3 - 1024 - 53) - e) with 0 by lia.
    reflexivity. }
  unfold binary_round_aux. rewrite Hshr. simpl. rewrite Hshr. simpl.
  destruct (Z.leb_spec e (1024 - 53)); [done | lia].
Qed.

(** A positive integer below [2^53] is a double, exactly. *)
Lemma double_of_nat_pos (n : nat) :
  0 < Z.of_nat n < 2 ^ 53 →
  ∃ m e, double_of_nat n = S754_finite false m e.
Proof.
  intros Hn. unfold double_of_nat.
  destruct (Z.of_nat n) as [|p|p] eqn:Hp; [lia | | lia].
  pose proof (digits2_pos_bound p 53) as Hd.
  assert (1 ≤ Z.pos (digits2_pos p) ≤ 53) as Hd' by lia. clear Hd.
  unfold binary_normalize, binary_round, shl_align, fexp, emin.
  replace (Z.max (Z.pos (digits2_pos p) + 0 - 53) (3 - 1024 - 53) - 0)
    with (Z.pos (digits2_pos p) - 53) by lia.
  replace (Z.max (Z.pos (digits2_pos p) + 0 - 53) (3 - 1024 - 53))
    with (Z.pos (digits2_pos p) - 53) by lia.
  destruct (Z.pos (digits2_pos p) - 53) as [|q|q] eqn:Hq; [| lia |].
  - eexists _, _. apply binary_round_aux_exact; lia.
  - eexists _, _. apply binary_round_aux_exact; [| lia].
    rewrite digits2_pos_iter_xO. lia.
Qed.

Lemma iter_pos_inv {A : Type} (P : A → Prop) (g : A → A) (n : positive) x :
  (∀ y, P y → P (g y)) → P x → P (SpecFloat.iter_pos g n x).
Proof.
  intros Hg. revert x. induction n as [n IH|n IH|]; intros x Hx; simpl.
  - by apply IH, IH, Hg.
  - by apply IH, IH.
  - by apply Hg.
Qed.

Lemma shr_1_nonneg mrs : 0 ≤ shr_m mrs → 0 ≤ shr_m (shr_1 mrs).
Proof.
  destruct mrs as [m r s]. simpl.
  destruct m as [|[p|p|]|[p|p|]]; simpl; lia.
Qed.

Lemma shr_fexp_nonneg m e l :
  0 ≤ m → 0 ≤ shr_m (fst (shr_fexp 53 1024 m e l)).
Proof.
  intros Hm. unfold shr_fexp, shr.
  assert (0 ≤ shr_m (shr_record_of_loc m l)) as Hrec.
  { by destruct l as [|[]]. }
  destruct (fexp 53 1024 (Zdigits2 m + e) - e); simpl; try done.
  by apply iter_pos_inv; [apply shr_1_nonneg |].
Qed.

Lemma round_nearest_even_nonneg m l : 0 ≤ m → 0 ≤ round_nearest_even m l.
Proof.
  intros Hm. destruct l as [|[]]; simpl; try lia.
  destruct (Z.even m); lia.
Qed.

Lemma binary_round_aux_sign s m e l :
  0 ≤ m →
  match binary_round_aux 53 1024 s m e l with
  | S754_zero s' | S754_infinity s' | S754_finite s' _ _ => s' = s
  | S754_nan => False
  end.
Proof.
  intros Hm. unfold binary_round_aux.
  pose proof (shr_fexp_nonneg m e l Hm) as H1.
  destruct (shr_fexp 53 1024 m e l) as [mrs' e'].
  pose proof (shr_fexp_nonneg
    (round_nearest_even (shr_m mrs') (loc_of_shr_record mrs')) e' loc_Exact
    (round_nearest_even_nonneg _ _ H1)) as H2.
  destruct (shr_fexp 53 1024 _ e' loc_Exact) as [mrs'' e''].
  simpl in H2. destruct (shr_m mrs''); [done | | lia].
  by destruct (e'' <=? 1024 - 53).
Qed.

Lemma fdiv_nonneg x my ey :
  nonneg_double x → x ≠ S754_infinity false →
  nonneg_double (fdiv x (S754_finite false my ey)).
Proof.
  intros Hx Hfin. unfold fdiv, SFdiv.
  destruct x as [s|s| |s mx ex]; simpl in Hx; subst; try done.
  destruct (SFdiv_core_binary 53 1024 (Z.pos mx) ex (Z.pos my) ey)
    as [[mz ez] lz] eqn:Hcore.
  pose proof (binary_round_aux_sign (xorb false false) mz ez lz) as Hsign.
  assert (0 ≤ mz) as Hmz.
  { unfold SFdiv_core_binary in Hcore.
    destruct (Z.div_eucl _ (Z.pos my)) as [q r] eqn:Hqr in Hcore.
    injection Hcore as <- _ _.
    match type of Hqr with Z.div_eucl ?m' _ = _ =>
      assert (0 ≤ m') as Hm'; [| change q with (fst (q, r));
        rewrite <- Hqr; apply (Z.div_pos m' (Z.pos my)); lia ] end.
    destruct (ex - ey - _); [lia | | lia].
    apply Z.shiftl_nonneg. lia. }
  specialize (Hsign Hmz). unfold nonneg_double.
  by destruct (binary_round_aux 53 1024 _ mz ez lz).
Qed.

Lemma fmul_nonneg x my ey :
  nonneg_double x → nonneg_double (fmul x (S754_finite false my ey)).
Proof.
  intros Hx. unfold fmul, SFmul.
  destruct x as [s|s| |s mx ex]; simpl in Hx; subst; try done.
  pose proof (binary_round_aux_sign (xorb false false)
                (Z.pos (mx * my)) (ex + ey) loc_Exact) as Hsign.
  unfold nonneg_double.
  destruct (binary_round_aux 53 1024 _ _ _ _); by apply Hsign.
Qed.

Lemma Math_round_nonneg x :
  nonneg_double x →
  Math_round x = JInf false ∨ ∃ z, 0 ≤ z ∧ Math_round x = JInt z.
Proof.
  destruct x as [s|s| |s m e]; simpl; intros Hx; subst; try done.
  - right. exists 0. done.
  - by left.
  - right. eexists. split; [| done].
    destruct (0 <=? e) eqn:He.
    + apply Z.mul_nonneg_nonneg; [lia |]. apply Z.pow_nonneg. lia.
    + apply Z.div_pos.
      * assert (0 ≤ 2 ^ (- e)) by (apply Z.pow_nonneg; lia). lia.
      * apply Z.pow_pos_nonneg; lia.
Qed.

(** The percentage is a number from 0 to 100 once clamped. *)
Lemma calculatedScore_range (m n : nat) :
  (m ≤ n)%nat → 0 < Z.of_nat n < 2 ^ 53 →
  ∃ k, 0 ≤ k ≤ 100 ∧ Math_min (JInt 100) (calculatedScore m n) = JInt k.
Proof.
  intros Hmn Hn. unfold calculatedScore.
  destruct (double_of_nat_pos n Hn) as (mn & en & ->).
  destruct (double_of_nat_pos 100) as (mh & eh & ->); [simpl; lia |].
  assert (nonneg_double (double_of_nat m) ∧
          double_of_nat m ≠ S754_infinity false) as [Hm Hfin].
  { destruct m as [|m]; [done |].
    destruct (double_of_nat_pos (S m)) as (mm & em & ->); [lia | done]. }
  pose proof (fmul_nonneg _ mh eh (fdiv_nonneg _ mn en Hm Hfin)) as Hpos.
  destruct (Math_round_nonneg _ Hpos) as [-> | (z & Hz & ->)]; simpl.
  - exists 100. done.
  - exists (Z.min 100 z). split; [lia | done].
Qed.

(** The product is a binary64 value: 23 of 40 is 57.49999999999999,
    not 57.5, and rounds to 57. *)
Remark calculatedScore_23_of_40 : calculatedScore 23 40 = JInt 57.
Proof. reflexivity. Qed.

Lemma calculatedScore_0 (n : nat) :
  0 < Z.of_nat n < 2 ^ 53 → calculatedScore 0 n = JInt 0.
Proof.
  intros Hn. unfold calculatedScore.
  destruct (double_of_nat_pos n Hn) as (mn & en & ->).
  reflexivity.
Qed.

Lemma digits2_pos_lower p : 2 ^ (Z.pos (digits2_pos p) - 1) ≤ Z.pos p.
Proof.
  induction p as [p IH|p IH|]; simpl digits2_pos; [| | simpl; lia].
  - rewrite Pos2Z.inj_succ.
    replace (Z.succ (Z.pos (digits2_pos p)) - 1)
      with (Z.succ (Z.pos (digits2_pos p) - 1)) by lia.
    rewrite Z.pow_succ_r by lia. lia.
  - rewrite Pos2Z.inj_succ.
    replace (Z.succ (Z.pos (digits2_pos p)) - 1)
      with (Z.succ (Z.pos (digits2_pos p) - 1)) by lia.
    rewrite Z.pow_succ_r by lia. lia.
Qed.

Lemma digits2_pos_upper p : Z.pos p < 2 ^ Z.pos (digits2_pos p).
Proof.
  induction p as [p IH|p IH|]; simpl digits2_pos; [| | simpl; lia];
    rewrite Pos2Z.inj_succ, Z.pow_succ_r by lia; lia.
Qed.

Lemma digits2_pos_le p (n : Z) :
  Z.pos p < 2 ^ n → Z.pos (digits2_pos p) ≤ n.
Proof.
  intros Hp. pose proof (digits2_pos_lower p) as Hl.
  destruct (Z.le_gt_cases (Z.pos (digits2_pos p)) n) as [|Hgt]; [done |].
  assert (2 ^ n ≤ 2 ^ (Z.pos (digits2_pos p) - 1)); [| lia].
  destruct (Z.le_gt_cases 0 n).
  - apply Z.pow_le_mono_r; lia.
  - rewrite Z.pow_neg_r by lia. apply Z.pow_nonneg. lia.
Qed.

Lemma pos_iter_xO p k : Z.pos (Pos.iter xO p k) = Z.pos p * 2 ^ Z.pos k.
Proof.
  induction k as [|k IH] using Pos.peano_ind.
  - simpl. lia.
  - rewrite Pos.iter_succ, Pos2Z.inj_succ, Z.pow_succ_r by lia.
    rewrite Pos2Z.inj_xO, IH. lia.
Qed.

(** An integer of fewer than 53 bits as a double: the bits, shifted to
    the top of the mantissa. *)
Lemma double_of_short s p k :
  (digits2_pos p + k = 53)%positive →
  binary_round 53 1024 s p 0
  = S754_finite s (Pos.iter xO p k) (- Z.pos k).
Proof.
  intros Hd. unfold binary_round, shl_align, fexp, emin.
  replace (Z.max (Z.pos (digits2_pos p) + 0 - 53) (3 - 1024 - 53) - 0)
    with (Z.neg k) by lia.
  replace (Z.max (Z.pos (digits2_pos p) + 0 - 53) (3 - 1024 - 53))
    with (Z.neg k) by lia.
  apply binary_round_aux_exact; [| lia].
  rewrite digits2_pos_iter_xO. lia.
Qed.

(** *** Rounding to 53 bits keeps the value within two units of the
    last place *)

Lemma shr_1_div2 mrs : 0 ≤ shr_m mrs → shr_m (shr_1 mrs) = shr_m mrs / 2.
Proof.
  destruct mrs as [m r s]. simpl. intros Hm.
  destruct m as [|[p|p|]|p]; simpl; try done; try lia.
  - apply (Z.div_unique _ 2 _ 1); lia.
  - apply (Z.div_unique _ 2 _ 0); lia.
Qed.

Lemma iter_shr_1 n mrs :
  0 ≤ shr_m mrs →
  shr_m (SpecFloat.iter_pos shr_1 n mrs) = shr_m mrs / 2 ^ Z.pos n.
Proof.
  revert mrs. induction n as [n IH|n IH|]; intros mrs Hm; simpl SpecFloat.iter_pos.
  - assert (0 ≤ shr_m (shr_1 mrs)) as H1 by by apply shr_1_nonneg.
    assert (0 ≤ shr_m (SpecFloat.iter_pos shr_1 n (shr_1 mrs))) as H2
      by by apply iter_pos_inv; [apply shr_1_nonneg |].
    rewrite IH, IH, shr_1_div2 by done.
    rewrite !Z.div_div by (try apply Z.pow_pos_nonneg; lia).
    f_equal. rewrite (Pos2Z.inj_xI n), Z.pow_add_r, Z.pow_mul_r by lia.
    change (2 ^ 2) with (2 * 2). rewrite Z.pow_mul_l. lia.
  - assert (0 ≤ shr_m (SpecFloat.iter_pos shr_1 n mrs)) as H2
      by by apply iter_pos_inv; [apply shr_1_nonneg |].
    rewrite IH, IH by done.
    rewrite !Z.div_div by (try apply Z.pow_pos_nonneg; lia).
    f_equal. rewrite (Pos2Z.inj_xO n), Z.pow_mul_r by lia.
    change (2 ^ 2) with (2 * 2). rewrite Z.pow_mul_l. lia.
  - rewrite shr_1_div2 by done. done.
Qed.

Lemma shr_fexp_spec m e l :
  0 < m → -1000 ≤ e →
  snd (shr_fexp 53 1024 m e l) = e + excess m
  ∧ shr_m (fst (shr_fexp 53 1024 m e l)) = m / 2 ^ excess m.
Proof.
  intros Hm He. destruct m as [|p|p]; [lia | | lia].
  unfold shr_fexp, fexp, emin, excess, Zdigits2.
  replace (Z.max (Z.pos (digits2_pos p) + e - 53) (3 - 1024 - 53) - e)
    with (Z.pos (digits2_pos p) - 53) by lia.
  assert (shr_m (shr_record_of_loc (Z.pos p) l) = Z.pos p) as Hrec
    by by destruct l as [|[]].
  destruct (Z.pos (digits2_pos p) - 53) as [|k|k] eqn:Hk;
    unfold shr; cbn [fst snd].
  - rewrite Z.max_l by lia. rewrite Hrec, Z.div_1_r.
    split; [lia | done].
  - rewrite Z.max_r by lia.
    rewrite iter_shr_1, Hrec by (rewrite Hrec; lia). done.
  - rewrite Z.max_l by lia. rewrite Hrec, Z.div_1_r.
    split; [lia | done].
Qed.

Lemma excess_bounds m :
  0 < m →
  0 ≤ excess m
  ∧ 0 < m / 2 ^ excess m < 2 ^ 53
  ∧ (0 < excess m → 2 ^ 52 ≤ m / 2 ^ excess m).
Proof.
  intros Hm. destruct m as [|p|p]; [lia | | lia].
  unfold excess, Zdigits2.
  pose proof (digits2_pos_lower p) as Hl.
  pose proof (digits2_pos_upper p) as Hu.
  destruct (Z.le_gt_cases (Z.pos (digits2_pos p)) 53) as [Hd|Hd].
  - rewrite Z.max_l by lia. rewrite Z.div_1_r.
    split; [lia |]. split; [| lia]. split; [lia |].
    eapply Z.lt_le_trans; [exact Hu |]. apply Z.pow_le_mono_r; lia.
  - rewrite Z.max_r by lia.
    set (k := Z.pos (digits2_pos p) - 53) in *.
    assert (0 < 2 ^ k) as Hk by (apply Z.pow_pos_nonneg; lia).
    replace (Z.pos (digits2_pos p) - 1) with (52 + k) in Hl by lia.
    replace (Z.pos (digits2_pos p)) with (53 + k) in Hu by lia.
    rewrite Z.pow_add_r in Hl, Hu by lia.
    assert (2 ^ 52 ≤ Z.pos p / 2 ^ k) as Hlow
      by (apply Z.div_le_lower_bound; lia).
    split; [lia |]. split; [| done]. split; [lia |].
    apply Z.div_lt_upper_bound; lia.
Qed.

Lemma div_pow2_bounds m k :
  0 ≤ k → 2 ^ k * (m / 2 ^ k) ≤ m < 2 ^ k * (m / 2 ^ k) + 2 ^ k.
Proof.
  intros Hk. assert (0 < 2 ^ k) as Hp by (apply Z.pow_pos_nonneg; lia).
  pose proof (Z.div_mod m (2 ^ k) ltac:(lia)) as Hdm.
  pose proof (Z.mod_pos_bound m (2 ^ k) Hp). lia.
Qed.

(** Rounding a positive mantissa: the result is finite, of at most 53
    bits, at an exponent raised by [k], and within two units of its last
    place of the mantissa it rounds, whatever the location says about
    the digits that were already lost. *)
Lemma binary_round_aux_bounds s mx ex lx :
  0 < mx → -1000 ≤ ex → ex + excess mx + 1 ≤ 971 →
  ∃ (m' : positive) (k : Z),
    binary_round_aux 53 1024 s mx ex lx = S754_finite s m' (ex + k)
    ∧ 0 ≤ k ≤ excess mx + 1
    ∧ Z.pos m' < 2 ^ 53
    ∧ mx - 2 * 2 ^ k < Z.pos m' * 2 ^ k ≤ mx + 2 ^ k.
Proof.
  intros Hmx Hex Hmax. unfold binary_round_aux.
  destruct (shr_fexp_spec mx ex lx Hmx Hex) as [He1 Hm1].
  destruct (excess_bounds mx Hmx) as (Hk1 & Hma & _).
  pose proof (div_pow2_bounds mx (excess mx) Hk1) as Hdiv1.
  destruct (shr_fexp 53 1024 mx ex lx) as [mrs' e']. cbn [fst snd] in He1, Hm1.
  set (ma := mx / 2 ^ excess mx) in *.
  set (mb := round_nearest_even (shr_m mrs') (loc_of_shr_record mrs')).
  assert (ma ≤ mb ≤ ma + 1) as Hmb.
  { unfold mb. rewrite Hm1.
    destruct (loc_of_shr_record mrs') as [|[]]; simpl; try lia.
    destruct (Z.even ma); lia. }
  assert (0 < mb) as Hmb0 by lia.
  destruct (shr_fexp_spec mb e' loc_Exact Hmb0 ltac:(lia)) as [He2 Hm2].
  destruct (excess_bounds mb Hmb0) as (Hk2 & Hmc & Hnorm).
  pose proof (div_pow2_bounds mb (excess mb) Hk2) as Hdiv2.
  assert (excess mb ≤ 1) as Hk2'.
  { unfold excess. destruct mb as [|pb|pb]; [lia | | lia].
    pose proof (digits2_pos_le pb 54 ltac:(lia)). simpl Zdigits2. lia. }
  destruct (shr_fexp 53 1024 mb e' loc_Exact) as [mrs'' e''].
  cbn [fst snd] in He2, Hm2.
  set (mc := mb / 2 ^ excess mb) in *.
  rewrite Hm2. destruct mc as [|m'|m'] eqn:Hmc'; [lia | | lia].
  exists m', (excess mx + excess mb).
  assert ((e'' <=? 1024 - 53) = true) as -> by (apply Z.leb_le; lia).
  split; [f_equal; lia |]. split; [lia |]. split; [lia |].
  rewrite Z.pow_add_r by lia.
  assert (0 < 2 ^ excess mx) as HA by (apply Z.pow_pos_nonneg; lia).
  assert (0 < 2 ^ excess mb) as HB by (apply Z.pow_pos_nonneg; lia).
  revert Hdiv1 Hdiv2 Hmb HA HB.
  generalize (2 ^ excess mx) (2 ^ excess mb) (Z.pos m').
  intros A B C Hdiv1 Hdiv2 Hmb' HA HB. nia.
Qed.


Lemma excess_le m n : 0 < m < 2 ^ (53 + n) → 0 ≤ n → excess m ≤ n.
Proof.
  intros Hm Hn. unfold excess. destruct m as [|p|p]; [lia | | lia].
  pose proof (digits2_pos_le p (53 + n) ltac:(lia)). simpl Zdigits2. lia.
Qed.

(** A positive array length as a double. *)
Lemma double_of_nat_short (n : nat) :
  0 < Z.of_nat n < 2 ^ 32 →
  ∃ p a, Z.of_nat n = Z.pos p
       ∧ (digits2_pos p + a = 53)%positive
       ∧ double_of_nat n = S754_finite false (Pos.iter xO p a) (- Z.pos a).
Proof.
  intros Hn. unfold double_of_nat.
  destruct (Z.of_nat n) as [|p|p] eqn:Hp; [lia | | lia].
  pose proof (digits2_pos_le p 32 ltac:(lia)) as Hd.
  exists p, (Z.to_pos (53 - Z.pos (digits2_pos p))).
  assert (digits2_pos p + Z.to_pos (53 - Z.pos (digits2_pos p)) = 53)%positive
    as Ha by lia.
  split; [done |]. split; [done |].
  by apply double_of_short.
Qed.

(** The last step, in integers: [mp / Tg] within [2^58 / TG] of
    [100 M / N], rounded to [kres]. *)
Lemma nearest_of_scaled (M N mp kres Tg TH TG : Z) :
  0 < N < 2 ^ 32 → 0 ≤ M → 0 < Tg → 0 < TH → TG = Tg * TH →
  2 ^ 91 ≤ TG →
  100 * M * TG - N * 2 ^ 58 < N * (mp * TH) < 100 * M * TG + N * 2 ^ 58 →
  2 * Tg * kres ≤ 2 * mp + Tg < 2 * Tg * kres + 2 * Tg →
  200 * M - N ≤ 2 * N * kres ≤ 200 * M + N.
Proof.
  intros HN HM HTg HTH -> HTG HX Hk.
  assert (2 * (Tg * TH) * kres ≤ 2 * (mp * TH) + Tg * TH
          < 2 * (Tg * TH) * kres + 2 * (Tg * TH)) as Hk' by nia.
  assert (N * (2 * (Tg * TH) * kres) ≤ N * (2 * (mp * TH) + Tg * TH))
    as Hlo by (apply Z.mul_le_mono_nonneg_l; lia).
  assert (N * (2 * (mp * TH) + Tg * TH)
          < N * (2 * (Tg * TH) * kres + 2 * (Tg * TH)))
    as Hhi by (apply Z.mul_lt_mono_pos_l; lia).
  assert (N * 2 ^ 59 < Tg * TH) as Hsmall by lia.
  split.
  - assert ((Tg * TH) * (200 * M + N - 1) < (Tg * TH) * (2 * N * kres + 2 * N))
      as H by lia.
    apply Z.mul_lt_mono_pos_l in H; lia.
  - assert ((Tg * TH) * (2 * N * kres) < (Tg * TH) * (200 * M + N + 1))
      as H by lia.
    apply Z.mul_lt_mono_pos_l in H; lia.
Qed.

(** The quotient of two positive array lengths, [m] not above [n]: a
    double [mq * 2^(h - c)] with [mq * 2^h / 2^c] within [8 / 2^c] of
    [m / n], where [c] is at least 53. *)
Lemma fdiv_bounds (m n : nat) :
  (m ≤ n)%nat → 0 < Z.of_nat m → Z.of_nat n < 2 ^ 32 →
  ∃ (mq : positive) (c h : Z),
    fdiv (double_of_nat m) (double_of_nat n) = S754_finite false mq (h - c)
    ∧ 53 ≤ c ≤ 84 ∧ 0 ≤ h ≤ 2 ∧ Z.pos mq < 2 ^ 53
    ∧ Z.of_nat m * 2 ^ c - 8 * Z.of_nat n
      < Z.of_nat n * (Z.pos mq * 2 ^ h)
      ≤ Z.of_nat m * 2 ^ c + 4 * Z.of_nat n.
Proof.
  intros Hmn Hm Hn.
  destruct (double_of_nat_short m) as (pm & a & HM & Ha & ->); [lia |].
  destruct (double_of_nat_short n) as (pn & b & HN & Hb & ->); [lia |].
  rewrite HM, HN. assert (Z.pos pm ≤ Z.pos pn) as Hle by lia.
  pose proof (digits2_pos_le pn 32 ltac:(lia)) as Hdn.
  clear HM HN Hmn Hm Hn m n.
  assert (Z.pos b ≤ Z.pos a) as Hba.
  { pose proof (digits2_pos_lower pm). pose proof (digits2_pos_upper pn).
    pose proof (digits2_pos_le pm (Z.pos (digits2_pos pn)) ltac:(lia)).
    lia. }
  assert (Z.pos (digits2_pos (Pos.iter xO pm a)) = 53) as Hda
    by (rewrite digits2_pos_iter_xO; lia).
  assert (Z.pos (digits2_pos (Pos.iter xO pn b)) = 53) as Hdb
    by (rewrite digits2_pos_iter_xO; lia).
  pose proof (digits2_pos_lower (Pos.iter xO pm a)) as Hm1l.
  pose proof (digits2_pos_upper (Pos.iter xO pm a)) as Hm1u.
  pose proof (digits2_pos_lower (Pos.iter xO pn b)) as Hm2l.
  pose proof (digits2_pos_upper (Pos.iter xO pn b)) as Hm2u.
  rewrite Hda in Hm1l, Hm1u. rewrite Hdb in Hm2l, Hm2u.
  pose proof (pos_iter_xO pm a) as Hm1. pose proof (pos_iter_xO pn b) as Hm2.
  unfold fdiv, SFdiv, SFdiv_core_binary, Zdigits2. rewrite Hda, Hdb.
  unfold fexp, emin.
  replace (Z.min (Z.max (53 + - Z.pos a - (53 + - Z.pos b) - 53)
                    (3 - 1024 - 53)) (- Z.pos a - - Z.pos b))
    with (- (53 + Z.pos a - Z.pos b)) by lia.
  replace (- Z.pos a - - Z.pos b - - (53 + Z.pos a - Z.pos b)) with 53
    by lia.
  cbv beta iota zeta. rewrite Z.shiftl_mul_pow2 by lia.
  set (m1 := Z.pos (Pos.iter xO pm a)) in *.
  set (m2 := Z.pos (Pos.iter xO pn b)) in *.
  set (c := 53 + Z.pos a - Z.pos b).
  pose proof (Z_div_mod (m1 * 2 ^ 53) m2 ltac:(lia)) as Hdiv.
  destruct (Z.div_eucl (m1 * 2 ^ 53) m2) as [Q R]. destruct Hdiv as [HQ HR].
  assert (2 ^ 52 ≤ Q < 2 ^ 54) as HQb.
  { change (2 ^ 53) with 9007199254740992 in *.
    change (2 ^ 52) with 4503599627370496 in *.
    change (2 ^ (53 - 1)) with 4503599627370496 in *.
    change (2 ^ 54) with 18014398509481984. nia. }
  destruct (binary_round_aux_bounds (xorb false false) Q (- c)
              (new_location m2 R)) as (mq & h & -> & Hh & Hmq & Hval).
  { lia. }
  { lia. }
  { pose proof (excess_le Q 1 ltac:(simpl; lia) ltac:(lia)). lia. }
  pose proof (excess_le Q 1 ltac:(simpl; lia) ltac:(lia)) as Hex.
  exists mq, c, h. split; [f_equal; lia |].
  split; [lia |]. split; [lia |]. split; [done |].
  assert (1 ≤ 2 ^ h ≤ 4) as Hth.
  { split; [apply (Z.pow_le_mono_r 2 0 h); lia |].
    apply (Z.pow_le_mono_r 2 h 2); lia. }
  assert (Z.pos pn * Q ≤ Z.pos pm * 2 ^ c < Z.pos pn * Q + Z.pos pn) as HA.
  { assert (0 < 2 ^ Z.pos b) as HB by (apply Z.pow_pos_nonneg; lia).
    assert (2 ^ Z.pos a * 2 ^ 53 = 2 ^ c * 2 ^ Z.pos b) as Hpow.
    { rewrite <- !Z.pow_add_r by lia. f_equal. lia. }
    rewrite Hm1, Hm2 in HQ. rewrite Hm2 in HR.
    assert ((Z.pos pm * 2 ^ c - Z.pos pn * Q) * 2 ^ Z.pos b = R) as HX by nia.
    revert HX HR HB. generalize (2 ^ Z.pos b) (2 ^ c). intros B C HX HR HB.
    nia. }
  set (Q' := Z.pos mq * 2 ^ h) in *. clearbody Q'.
  assert (Z.pos pn * (Q - 7) ≤ Z.pos pn * Q') as H1
    by (apply Z.mul_le_mono_nonneg_l; lia).
  assert (Z.pos pn * Q' ≤ Z.pos pn * (Q + 4)) as H2
    by (apply Z.mul_le_mono_nonneg_l; lia).
  lia.
Qed.

(** The percentage of [m] matches of [n] words, as the code computes
    it in doubles, is an integer nearest to [100 m / n]: its distance is
    at most a half.  The two roundings together are far smaller than
    the distance [1 / 2n] that [100 m / n + 1/2] keeps from the integers
    it does not equal. *)
Lemma calculatedScore_nearest (m n : nat) :
  (m ≤ n)%nat → 0 < Z.of_nat n < 2 ^ 32 →
  ∃ k, calculatedScore m n = JInt k
       ∧ 200 * Z.of_nat m - Z.of_nat n ≤ 2 * Z.of_nat n * k
         ≤ 200 * Z.of_nat m + Z.of_nat n.
Proof.
  intros Hmn Hn. destruct (decide (m = 0%nat)) as [->|Hm].
  { exists 0. rewrite calculatedScore_0 by lia. split; [done | lia]. }
  destruct (fdiv_bounds m n) as (mq & c & h & Hq & Hc & Hh & Hmq & Hval);
    [done | lia | lia |].
  unfold calculatedScore. rewrite Hq.
  change (double_of_nat 100) with (S754_finite false 7036874417766400 (-46)).
  unfold fmul, SFmul. change (xorb false false) with false.
  assert (0 < Z.pos (mq * 7036874417766400) < 2 ^ (53 + 53)) as HP.
  { rewrite Pos2Z.inj_mul. change (2 ^ (53 + 53)) with (2 ^ 53 * 2 ^ 53).
    change (2 ^ 53) with 9007199254740992 in *. nia. }
  pose proof (excess_le _ 53 HP ltac:(lia)) as Hex.
  destruct (binary_round_aux_bounds false
              (Z.pos (mq * 7036874417766400)) (h - c + -46) loc_Exact)
    as (mp & h' & -> & Hh' & Hmp & Hval'); [lia | lia | lia |].
  unfold Math_round.
  assert ((0 <=? h - c + -46 + h') = false) as -> by (apply Z.leb_gt; lia).
  eexists. split; [done |].
  set (g := c + 46 - h - h').
  replace (- (h - c + -46 + h')) with g by (unfold g; lia).
  replace (1 - (h - c + -46 + h')) with (g + 1) by (unfold g; lia).
  assert (43 ≤ g) as Hg by (unfold g; lia).
  pose proof (div_pow2_bounds (2 * Z.pos mp + 2 ^ g) (g + 1) ltac:(lia))
    as Hk.
  set (kres := (2 * Z.pos mp + 2 ^ g) / 2 ^ (g + 1)) in *.
  rewrite (Z.pow_add_r 2 g 1) in Hk by lia. change (2 ^ 1) with 2 in Hk.
  assert (1 ≤ 2 ^ h ≤ 4) as Hth.
  { split; [apply (Z.pow_le_mono_r 2 0 h); lia |].
    apply (Z.pow_le_mono_r 2 h 2); lia. }
  assert (1 ≤ 2 ^ h' ≤ 2 ^ 54) as Hth'.
  { split; [apply (Z.pow_le_mono_r 2 0 h'); lia |].
    apply (Z.pow_le_mono_r 2 h' 54); lia. }
  assert (2 ^ 53 ≤ 2 ^ c) as Htc by (apply Z.pow_le_mono_r; lia).
  apply (nearest_of_scaled (Z.of_nat m) (Z.of_nat n) (Z.pos mp) _
           (2 ^ g) (2 ^ h * 2 ^ h') (2 ^ c * 2 ^ 46)).
  - lia.
  - lia.
  - apply Z.pow_pos_nonneg; lia.
  - lia.
  - rewrite <- !Z.pow_add_r by lia. f_equal. unfold g. lia.
  - change (2 ^ 91) with (2 ^ 45 * 2 ^ 46). change (2 ^ 53) with (2 ^ 8 * 2 ^ 45) in Htc. lia.
  - rewrite Pos2Z.inj_mul in Hval'.
    set (Th := 2 ^ h) in *. set (Th' := 2 ^ h') in *. set (Tc := 2 ^ c) in *.
    set (Y := Z.pos mp * Th') in *.
    assert (Y * Th ≤ (Z.pos mq * 7036874417766400 + Th') * Th) as a1
      by (apply Z.mul_le_mono_nonneg_r; lia).
    assert ((Z.pos mq * 7036874417766400 - 2 * Th' + 1) * Th ≤ Y * Th) as a2
      by (apply Z.mul_le_mono_nonneg_r; lia).
    assert (Z.of_nat n * (Y * Th)
            ≤ Z.of_nat n * ((Z.pos mq * 7036874417766400 + Th') * Th)) as a3
      by (apply Z.mul_le_mono_nonneg_l; lia).
    assert (Z.of_nat n * ((Z.pos mq * 7036874417766400 - 2 * Th' + 1) * Th)
            ≤ Z.of_nat n * (Y * Th)) as a4
      by (apply Z.mul_le_mono_nonneg_l; lia).
    assert (Th * Th' ≤ 4 * 2 ^ 54) as a5 by nia.
    assert (Z.of_nat n * (Th * Th') ≤ Z.of_nat n * (4 * 2 ^ 54)) as a6
      by (apply Z.mul_le_mono_nonneg_l; lia).
    assert (Z.pos mp * (Th * Th') = Y * Th) as -> by (unfold Y; lia).
    change (2 ^ 46) with 70368744177664. change (2 ^ 58) with 288230376151711744.
    change (2 ^ 54) with 18014398509481984 in *.
    clearbody Y Th Th' Tc. lia.
  - lia.
Qed.

Lemma number_ge_clamp x :
  number_ge (Math_min (JInt 100) x) (JInt 70) = number_ge x (JInt 70).
Proof.
  destruct x as [z| |[]]; simpl; try done.
  apply bool_decide_ext. lia.
Qed.

Local Close Scope Z_scope.

(** ** Normalization *)

Lemma isWhiteSpace_space : isWhiteSpace space = true.
Proof. reflexivity. Qed.

Lemma collapse_from_spaced b s :
  spaced True (collapse_from b s)
  ∧ (b = true → starts_clean (collapse_from b s)).
Proof.
  revert b. induction s as [|c r IH]; intros b; simpl; [done |].
  destruct (isWhiteSpace c) eqn:Hc.
  - destruct (IH true) as [Hsp Hst]. destruct b; [done |].
    split; [| done]. simpl. split; [| done]. intros _. split; [done |].
    specialize (Hst eq_refl). by destruct (collapse_from true r).
  - destruct (IH false) as [Hsp _]. split; [| done].
    simpl. split; [| done]. intros Hc'. congruence.
Qed.

Lemma spaced_tail at_end c r : spaced at_end (c :: r) → spaced at_end r.
Proof. by intros [_ ?]. Qed.

Lemma trimStart_spaced at_end s :
  spaced at_end s → spaced at_end (trimStart s) ∧ starts_clean (trimStart s).
Proof.
  induction s as [|c r IH]; simpl; [done |].
  intros Hsp. destruct (isWhiteSpace c) eqn:Hc.
  - apply IH, Hsp.
  - split; [| done]. simpl. by rewrite Hc.
Qed.

Lemma trimStart_app x y :
  trimStart (x ++ y) =
  if forallb isWhiteSpace x then trimStart y else trimStart x ++ y.
Proof.
  induction x as [|c x IH]; simpl; [done |].
  destruct (isWhiteSpace c); simpl; done.
Qed.

Lemma forallb_rev {A : Type} (P : A → bool) (l : list A) :
  forallb P (rev l) = forallb P l.
Proof.
  induction l as [|x l IH]; simpl; [done |].
  rewrite forallb_app, IH. simpl. rewrite andb_true_r. apply andb_comm.
Qed.

Lemma trimStart_all s : forallb isWhiteSpace s = true → trimStart s = [].
Proof.
  induction s as [|c r IH]; simpl; [done |].
  destruct (isWhiteSpace c); simpl; done.
Qed.

Lemma trimEnd_cons c r :
  trimEnd (c :: r) =
  if forallb isWhiteSpace (c :: r) then [] else c :: trimEnd r.
Proof.
  unfold trimEnd. simpl rev at 2. rewrite trimStart_app, forallb_rev.
  simpl forallb. destruct (forallb isWhiteSpace r) eqn:Hr.
  - rewrite andb_true_r. simpl.
    rewrite trimStart_all by (by rewrite forallb_rev).
    by destruct (isWhiteSpace c).
  - rewrite andb_false_r. by rewrite rev_app_distr.
Qed.

Lemma trimEnd_spaced s :
  spaced True s → spaced False (trimEnd s).
Proof.
  induction s as [|c r IH]; [done |].
  intros [Hc Hr]. rewrite trimEnd_cons.
  destruct (forallb isWhiteSpace (c :: r)) eqn:Hall; [done |].
  simpl. split; [| by apply IH].
  intros Hws. simpl in Hall. rewrite Hws in Hall. simpl in Hall.
  destruct (Hc Hws) as [-> Hnext]. split; [done |].
  destruct r as [|d r']; [done |].
  rewrite trimEnd_cons, Hall. done.
Qed.

Lemma trimEnd_starts_clean s : starts_clean s → starts_clean (trimEnd s).
Proof.
  destruct s as [|c r]; [done |]. rewrite trimEnd_cons.
  by destruct (forallb isWhiteSpace (c :: r)).
Qed.

Lemma trimStart_sublist s : trimStart s `sublist_of` s.
Proof.
  induction s as [|c r IH]; simpl; [done |].
  destruct (isWhiteSpace c); [by apply sublist_cons | done].
Qed.

Lemma trimEnd_sublist s : trimEnd s `sublist_of` s.
Proof.
  induction s as [|c r IH]; [done |]. rewrite trimEnd_cons.
  destruct (forallb isWhiteSpace (c :: r)).
  - apply sublist_nil_l.
  - by apply sublist_skip.
Qed.

Lemma collapse_from_elem b s c :
  c ∈ collapse_from b s → c = space ∨ (c ∈ s ∧ isWhiteSpace c = false).
Proof.
  revert b. induction s as [|d r IH]; intros b; simpl.
  - by intros ?%elem_of_nil.
  - destruct (isWhiteSpace d) eqn:Hd.
    + destruct b.
      * intros [?|[? ?]]%IH; [by left | right; split; [by right | done]].
      * intros [->|[?|[? ?]]%IH]%elem_of_cons;
          [by left | by left | right; split; [by right | done]].
    + intros [->|[?|[? ?]]%IH]%elem_of_cons.
      * right. split; [by left | done].
      * by left.
      * right. split; [by right | done].
Qed.




(** *** [split] *)

Lemma split_not_nil sep s : split sep s ≠ [].
Proof.
  destruct s as [|c r]; simpl; [done |].
  case_decide; [done |]. by destruct (split sep r).
Qed.




(** * The claims *)

(** ** Edit distance *)

(** C2. [getLevenshteinDistance a b] returns the value of the classic
    recurrence, which is the least number of single-character insertions,
    deletions and substitutions that turn [a] into [b]: that many
    operations do it, no fewer do, and the result is the same for [b]
    and [a]. *)
Theorem getLevenshteinDistance_minimal (a b : jsstring) :
  ∃ d, getLevenshteinDistance a b = Some d
       ∧ d = lev a b
       ∧ transforms d a b
       ∧ (∀ n, transforms n a b → d ≤ n)
       ∧ getLevenshteinDistance b a = Some d.
Proof.
  exists (lev a b). split; [apply getLevenshteinDistance_lev |].
  split; [done |]. split; [apply lev_transforms |].
  split; [intros n; apply transforms_lev |].
  rewrite (lev_sym a b). apply getLevenshteinDistance_lev.
Qed.

(** ** The matching rule *)

(** C6. A candidate is accepted for a target word exactly when the edit
    distance is at most 2 for a target of more than 5 characters and at
    most 1 otherwise; a pass over one target word and one spoken word
    counts a match in exactly that case, so a target of length 5 matches
    at distance 1 and not at distance 2, and a target of length 7 matches
    at distance 2 and not at distance 3. *)
Theorem fuzzy_threshold (t s : jsstring) (d : nat) :
  getLevenshteinDistance t s = Some d →
  (fuzzyMatch t s = true ↔ d ≤ (if decide (5 < length t) then 2 else 1))
  ∧ (matches (align [t] [s]) = 1 ↔
     d ≤ (if decide (5 < length t) then 2 else 1))
  ∧ (matches (align [t] [s]) = 0 ↔
     ¬ d ≤ (if decide (5 < length t) then 2 else 1))
  ∧ (length t = 5 → d = 1 → matches (align [t] [s]) = 1)
  ∧ (length t = 5 → d = 2 → matches (align [t] [s]) = 0)
  ∧ (length t = 7 → d = 2 → matches (align [t] [s]) = 1)
  ∧ (length t = 7 → d = 3 → matches (align [t] [s]) = 0).
Proof.
  intros Hd.
  assert (Hfuzzy : fuzzyMatch t s = true ↔
                   d ≤ (if decide (5 < length t) then 2 else 1)).
  { unfold fuzzyMatch. rewrite Hd. apply bool_decide_eq_true. }
  assert (Hpass : matches (align [t] [s]) =
                  if fuzzyMatch t s then 1 else 0).
  { unfold align, align_from. simpl. rewrite align_word_search.
    unfold search, window_size. simpl.
    rewrite accepts_fuzzyMatch. by destruct (fuzzyMatch t s). }
  assert (H1 : matches (align [t] [s]) = 1 ↔
               d ≤ (if decide (5 < length t) then 2 else 1)).
  { rewrite Hpass, <- Hfuzzy. by destruct (fuzzyMatch t s). }
  assert (H0 : matches (align [t] [s]) = 0 ↔
               ¬ d ≤ (if decide (5 < length t) then 2 else 1)).
  { rewrite Hpass, <- Hfuzzy. by destruct (fuzzyMatch t s). }
  split; [done |]. split; [done |]. split; [done |].
  repeat split; intros Hlen ->.
  - apply H1. rewrite decide_False by lia. lia.
  - apply H0. rewrite decide_False by lia. lia.
  - apply H1. rewrite decide_True by lia. lia.
  - apply H0. rewrite decide_True by lia. lia.
Qed.

(** The rule at the boundaries, on four pairs of words. *)
Lemma fuzzy_threshold_witness :
  matches (align [js "happy"] [js "hapy"]) = 1
  ∧ matches (align [js "happy"] [js "hap"]) = 0
  ∧ matches (align [js "journey"] [js "jorny"]) = 1
  ∧ matches (align [js "journey"] [js "jrny"]) = 0.
Proof.
  split; [| split; [| split]].
  - destruct (fuzzy_threshold (js "happy") (js "hapy") 1 eq_refl)
      as (_ & _ & _ & H & _). by apply H.
  - destruct (fuzzy_threshold (js "happy") (js "hap") 2 eq_refl)
      as (_ & _ & _ & _ & H & _). by apply H.
  - destruct (fuzzy_threshold (js "journey") (js "jorny") 2 eq_refl)
      as (_ & _ & _ & _ & _ & H & _). by apply H.
  - destruct (fuzzy_threshold (js "journey") (js "jrny") 3 eq_refl)
      as (_ & _ & _ & _ & _ & _ & H). by apply H.
Defined.

(** ** The search for one target word *)

(** C1, as the claim states it, fails: with "bat" before "cat" in the
    window, the target "cat" has an exact candidate at index 1, yet the
    aligner stops at index 0 and leaves the cursor at 1, not at 2. *)
Lemma exact_priority_counterexample :
  ¬ (∀ (S : list jsstring) (st : Align) (t : jsstring) (k : nat),
       spokenIdx st ≤ k < Nat.min (spokenIdx st + SEARCH_WINDOW) (length S) →
       S !! k = Some t →
       (∀ k', spokenIdx st ≤ k' < k → S !! k' ≠ Some t) →
       spokenIdx (align_word S st t) = k + 1).
Proof.
  intros Hclaim.
  specialize (Hclaim (js <$> ["bat"; "cat"]%string) align_init (js "cat") 1).
  assert (spokenIdx (align_word (js <$> ["bat"; "cat"]%string) align_init
                       (js "cat")) = 1) as Hcode by reflexivity.
  rewrite Hclaim in Hcode; [discriminate | simpl; lia | reflexivity |].
  intros k' Hk'. replace k' with 0 by (simpl in Hk'; lia). discriminate.
Qed.

(** C1, amended. The window is scanned once, left to right, and the
    target word is matched to the leftmost candidate that equals it or is
    within the allowed edits, the cursor going just past that candidate;
    with no such candidate the cursor stays.  When no candidate of the
    window equals the target word, this is the search of the
    specification: the first candidate within the allowed edits. *)
Theorem window_first_accepted (S : list jsstring) (st : Align) (t : jsstring) :
  let lo := spokenIdx st in
  let hi := Nat.min (lo + SEARCH_WINDOW) (length S) in
  let rejected w :=
    w ≠ t ∧ ∀ d, getLevenshteinDistance t w = Some d → ¬ d ≤ allowedEdits t in
  ((∃ k w, lo ≤ k < hi ∧ S !! k = Some w
      ∧ (w = t ∨ ∃ d, getLevenshteinDistance t w = Some d
                      ∧ d ≤ allowedEdits t)
      ∧ (∀ k' w', lo ≤ k' < k → S !! k' = Some w' → rejected w')
      ∧ align_word S st t =
        {| matches := matches st + 1; spokenIdx := k + 1;
           foundMatch := true |})
   ∨ ((∀ k w, lo ≤ k < hi → S !! k = Some w → rejected w)
      ∧ align_word S st t =
        {| matches := matches st; spokenIdx := lo; foundMatch := false |}))
  ∧ ((∀ k, lo ≤ k < hi → S !! k ≠ Some t) →
     align_word S st t = after_search st (spec_search t S lo)).
Proof.
  intros lo hi rejected. rewrite align_word_search. fold lo. split.
  - destruct (search t S lo) as [k|] eqn:Hs.
    + left. apply search_Some in Hs as (Hk & (w & Hw & Hacc) & Hmin).
      exists k, w. split; [done |]. split; [done |].
      split; [by apply accepts_spec |]. split; [| done].
      intros k' w' Hk' Hw'. apply accepts_false_spec. by apply (Hmin k').
    + right. split; [| done]. intros k w Hk Hw.
      apply accepts_false_spec. rewrite search_None in Hs. by apply (Hs k).
  - intros Hno. f_equal. unfold spec_search.
    assert (find_from (exactMatch t) S (window_size S lo) lo = None) as ->.
    { destruct (decide (lo ≤ length S)) as [Hlo|Hlo].
      - apply find_from_None; [unfold window_size; lia |].
        intros k w Hk Hw. apply bool_decide_eq_false. intros ->.
        apply (Hno k); [by apply window_bounds | done].
      - by replace (window_size S lo) with 0 by (unfold window_size; lia). }
    unfold search. apply find_from_ext. apply accepts_fuzzyMatch.
Qed.

(** ** The pass *)

(** C7. Along a pass the cursor never decreases; a target word either
    misses, leaving cursor and count as they are, or consumes exactly one
    spoken word of its window, the cursor going just past it; a word
    consumed later lies at or after every earlier cursor, so the consumed
    indices strictly increase and no spoken word is consumed twice. *)
Theorem cursor_monotone (T S : list jsstring) :
  let tr := align_init :: align_trace S align_init T in
  last tr = Some (align T S)
  ∧ (∀ i j st st', i ≤ j → tr !! i = Some st → tr !! j = Some st' →
       spokenIdx st ≤ spokenIdx st')
  ∧ (∀ i st st', tr !! i = Some st → tr !! (i + 1) = Some st' →
       match consumed st' with
       | Some k =>
         spokenIdx st ≤ k < Nat.min (spokenIdx st + SEARCH_WINDOW) (length S)
         ∧ spokenIdx st' = k + 1 ∧ matches st' = matches st + 1
       | None => spokenIdx st' = spokenIdx st ∧ matches st' = matches st
       end)
  ∧ (∀ i j st st' k, i < j → tr !! i = Some st → tr !! j = Some st' →
       consumed st' = Some k → spokenIdx st ≤ k)
  ∧ StronglySorted lt (matched_indices S align_init T)
  ∧ NoDup (matched_indices S align_init T).
Proof.
  intros tr.
  assert (Hmono : ∀ i j st st', i ≤ j → tr !! i = Some st →
                    tr !! j = Some st' → spokenIdx st ≤ spokenIdx st').
  { intros i j st st' Hij Hi Hj.
    apply align_trace_lookup_Some in Hi as [Hli ->].
    apply align_trace_lookup_Some in Hj as [Hlj ->].
    replace j with (i + (j - i)) by lia.
    rewrite <- take_take_drop, align_from_app. apply align_from_cursor_le. }
  assert (Hstep : ∀ i st st', tr !! i = Some st → tr !! (i + 1) = Some st' →
       match consumed st' with
       | Some k =>
         spokenIdx st ≤ k < Nat.min (spokenIdx st + SEARCH_WINDOW) (length S)
         ∧ spokenIdx st' = k + 1 ∧ matches st' = matches st + 1
       | None => spokenIdx st' = spokenIdx st ∧ matches st' = matches st
       end).
  { intros i st st' Hi Hj.
    apply align_trace_lookup_Some in Hi as [Hli ->].
    apply align_trace_lookup_Some in Hj as [Hlj ->].
    destruct (lookup_lt_is_Some_2 T i) as [t Ht]; [lia |].
    replace (i + 1) with (Datatypes.S i) by lia.
    rewrite (take_S_r T i t Ht), align_from_app. simpl.
    rewrite align_word_search, consumed_after_search.
    destruct (search t S _) as [k|] eqn:Hs; simpl; [| done].
    apply search_Some in Hs. split; [apply Hs | done]. }
  split; [apply align_trace_last |]. split; [done |]. split; [done |].
  split.
  - intros i j st st' k Hij Hi Hj Hk.
    destruct j as [|j]; [lia |].
    destruct (tr !! j) as [st1|] eqn:Hj1.
    + pose proof (Hmono i j st st1 ltac:(lia) Hi Hj1) as Hle.
      replace (Datatypes.S j) with (j + 1) in Hj by lia.
      pose proof (Hstep j st1 st' Hj1 Hj) as Hs. rewrite Hk in Hs. lia.
    + apply lookup_ge_None in Hj1. apply lookup_lt_Some in Hj. lia.
  - destruct (matched_indices_sorted S T align_init) as [_ Hsorted].
    split; [done |].
    clear -Hsorted. induction Hsorted as [|k l _ IH Hall]; constructor.
    + intros Hin. rewrite Forall_forall in Hall. specialize (Hall k Hin). lia.
    + done.
Qed.

(** ** Fillers *)

(** C8, as the claim states it, fails: five unrelated words and then the
    four target words score 100; with "um" put before "alpha", which is
    the last place of the window that found it, no target word is found
    any more: four matches are lost, not one, and the score is 0. *)
Lemma filler_counterexample :
  ¬ (∀ (T S : list jsstring) (f : jsstring) (p c : nat),
       unrelated T f → matched_from T S p c →
       c ≤ p < c + SEARCH_WINDOW →
       matches (align T S) ≤ matches (align T (insert_at p f S)) + 1)
  ∧ (∀ st, pronunciationScore (scoreWords alphabet_target alphabet_spoken st)
           = Some (JInt 100))
  ∧ (∀ st, pronunciationScore
             (scoreWords alphabet_target
                (insert_at 5 (js "um") alphabet_spoken) st)
           = Some (JInt 0)).
Proof.
  split; [| split; intros st; reflexivity].
  intros Hclaim.
  specialize (Hclaim alphabet_target alphabet_spoken (js "um") 5 0).
  assert (matches (align alphabet_target alphabet_spoken) = 4) as Hbefore
    by reflexivity.
  assert (matches (align alphabet_target
                     (insert_at 5 (js "um") alphabet_spoken)) = 0) as Hafter
    by reflexivity.
  rewrite Hbefore, Hafter in Hclaim.
  assert (4 ≤ 0 + 1) as Habs; [| lia].
  apply Hclaim.
  - repeat constructor.
  - exists [], (js "alpha"), (js <$> ["bravo"; "charlie"; "delta"]%string).
    repeat split.
  - unfold SEARCH_WINDOW. lia.
Qed.

(** C8, amended. When the correctly spoken word is still inside the
    window of its search after the filler has moved it one place, the
    pass matches as many target words as before, and the score is the
    same; only spoken words that are the single empty token, which the
    guard scores 0, can score differently with the filler. *)
Theorem filler_within_window (T S : list jsstring) (f : jsstring)
    (p c : nat) (st : SkillTest) :
  unrelated T f →
  matched_from T S p c →
  p + 1 < c + SEARCH_WINDOW →
  matches (align T (insert_at p f S)) = matches (align T S)
  ∧ (S ≠ [[]] → scoreWords T (insert_at p f S) st = scoreWords T S st)
  ∧ (S = [[]] → pronunciationScore (scoreWords T S st) = Some (JInt 0)).
Proof.
  intros Hf (T1 & t & T2 & -> & Hc & Hs) Hin.
  assert (Hm : matches (align (T1 ++ t :: T2) (insert_at p f S))
               = matches (align (T1 ++ t :: T2) S)).
  { pose proof Hs as Hs'. apply search_Some in Hs' as (Hp & _ & _).
    assert (p ≤ length S) as Hlen by lia.
    apply Forall_app in Hf as [Hf1 Hf2].
    apply Forall_cons in Hf2 as [Hft Hf2].
    unfold align. rewrite !align_from_app, !align_from_cons.
    rewrite (align_from_before S f p Hlen T1) by (done || lia).
    rewrite !align_word_search, Hc, Hs.
    rewrite (search_hit_shifted S f p Hlen t c p) by (done || lia).
    change (after_search (align_from S align_init T1) (Some (p + 1)))
      with (shift_cursor (after_search (align_from S align_init T1) (Some p))).
    rewrite (align_from_after S f p Hlen) by (simpl; lia).
    done. }
  split; [done |]. split.
  - intros HS. unfold scoreWords. rewrite Hm.
    apply search_Some in Hs as (Hp & _ & _).
    rewrite !decide_False; [done | |].
    + intros [Hlen|[Hlen Hhd]]; [lia |].
      destruct S as [|w [|? ?]]; simpl in *; try lia. congruence.
    + rewrite insert_at_length by lia. lia.
  - intros ->. reflexivity.
Qed.

(** A filler after the first of four correct words loses no match. *)
Lemma filler_within_window_witness :
  matches (align alphabet_target (insert_at 1 (js "um") alphabet_target)) = 4.
Proof.
  pose proof (filler_within_window alphabet_target alphabet_target (js "um")
                1 1 (fresh_test EmptyString EmptyString)) as H.
  destruct H as (H & _ & _).
  - repeat constructor.
  - exists [js "alpha"], (js "bravo"), (js <$> ["charlie"; "delta"]%string).
    repeat split.
  - unfold SEARCH_WINDOW. lia.
  - rewrite H. reflexivity.
Defined.

(** ** The score *)

Lemma scoreWords_guard T S st :
  S = [] ∨ S = [[]] → scoreWords T S st = setPronunciationScore (JInt 0) st.
Proof.
  intros HS. unfold scoreWords. rewrite decide_True; [done |].
  destruct HS as [-> | ->]; [by left | by right].
Qed.

Lemma scoreWords_run T S st :
  S ≠ [] → S ≠ [[]] →
  scoreWords T S st =
  setScore
    {| correct :=
         if number_ge (calculatedScore (matches (align T S)) (length T))
              (JInt 70) then 1 else 0;
       total := 1 |}
    (setPronunciationScore
       (Math_min (JInt 100)
          (calculatedScore (matches (align T S)) (length T))) st).
Proof.
  intros Hnil Hblank. unfold scoreWords. rewrite decide_False; [done |].
  intros [Hlen|[Hlen Hhd]].
  - by apply nil_length_inv in Hlen.
  - destruct S as [|w [|? ?]]; simpl in *; try lia. congruence.
Qed.

(** C5. For an empty spoken sequence, or one that is a single empty
    token, the function sets the pronunciation score to 0 and does
    nothing else, whatever the target sequence: the alignment is not
    consulted and the test score is left as it was. *)
Theorem no_speech_scores_zero (T S : list jsstring) (st : SkillTest) :
  S = [] ∨ S = [[]] →
  scoreWords T S st = setPronunciationScore (JInt 0) st
  ∧ pronunciationScore (scoreWords T S st) = Some (JInt 0)
  ∧ score (scoreWords T S st) = score st.
Proof. intros HS. by rewrite scoreWords_guard. Qed.

(** A single empty spoken token against four target words. *)
Lemma no_speech_scores_zero_witness :
  pronunciationScore
    (scoreWords one_four_target [[]] (fresh_test "one two three four" EmptyString))
  = Some (JInt 0).
Proof.
  apply (no_speech_scores_zero one_four_target [[]]
           (fresh_test "one two three four" EmptyString)).
  right. reflexivity.
Defined.

(** An integer within a half of [100 m / n] is the rounded percentage,
    or one less when [100 m / n] lies halfway between two integers. *)
Lemma nearest_is_rounded (m n : nat) (k : Z) :
  m ≤ n → 0 < n →
  (200 * Z.of_nat m - Z.of_nat n ≤ 2 * Z.of_nat n * k
   ≤ 200 * Z.of_nat m + Z.of_nat n)%Z →
  (0 ≤ k ≤ 100)%Z
  ∧ (k = roundedPercent m n ∨ k = roundedPercent m n - 1)%Z
  ∧ (((200 * Z.of_nat m + Z.of_nat n) `mod` (2 * Z.of_nat n))%Z ≠ 0%Z →
     k = roundedPercent m n).
Proof.
  intros Hmn Hn Hk. unfold roundedPercent.
  pose proof (Z.div_mod (200 * Z.of_nat m + Z.of_nat n) (2 * Z.of_nat n)
                ltac:(lia)) as Hdm.
  pose proof (Z.mod_pos_bound (200 * Z.of_nat m + Z.of_nat n)
                (2 * Z.of_nat n) ltac:(lia)) as Hr.
  revert Hdm Hr.
  generalize ((200 * Z.of_nat m + Z.of_nat n) `div` (2 * Z.of_nat n))%Z
             ((200 * Z.of_nat m + Z.of_nat n) `mod` (2 * Z.of_nat n))%Z.
  intros t r Hdm Hr. split; [nia |]. split; [nia |]. intros Hr0. nia.
Qed.

(** Past the guard: the percentage [k] that the doubles give, stored
    as it is, and the test score that follows from it. *)
Lemma scoreWords_percent T S st :
  S ≠ [] → S ≠ [[]] → 0 < length T → (Z.of_nat (length T) < 2 ^ 32)%Z →
  ∃ k : Z,
    calculatedScore (matches (align T S)) (length T) = JInt k
    ∧ (200 * Z.of_nat (matches (align T S)) - Z.of_nat (length T)
       ≤ 2 * Z.of_nat (length T) * k
       ≤ 200 * Z.of_nat (matches (align T S)) + Z.of_nat (length T))%Z
    ∧ (0 ≤ k ≤ 100)%Z
    ∧ scoreWords T S st
      = setScore {| correct := if bool_decide (70 ≤ k)%Z then 1 else 0;
                    total := 1 |}
          (setPronunciationScore (JInt k) st).
Proof.
  intros Hnil Hblank Hn Hbound.
  pose proof (matches_le_length S T align_init) as Hle. simpl in Hle.
  fold (align T S) in Hle.
  destruct (calculatedScore_nearest (matches (align T S)) (length T))
    as (k & Hk & Hnear); [done | lia |].
  destruct (nearest_is_rounded _ _ k Hle Hn Hnear) as (Hrange & _).
  exists k. split; [done |]. split; [done |]. split; [done |].
  rewrite scoreWords_run, Hk by done. simpl.
  by rewrite Z.min_r by lia.
Qed.

(** C4, as the claim states it, fails: of forty target words the
    first twenty-three are spoken and matched, and 23 / 40 × 100 is
    57.5, which rounds to 58; the doubles give 57.49999999999999 and
    the score is 57.  It also fails at the guard, where the score is 0
    although the pass would match the one-letter target. *)
Lemma exact_rounding_counterexample :
  ¬ (∀ (T S : list jsstring) (st : SkillTest),
       S ≠ [] → S ≠ [[]] → T ≠ [] →
       pronunciationScore (scoreWords T S st)
       = Some (JInt (Z.min 100
                       (roundedPercent (matches (align T S)) (length T)))))
  ∧ matches (align forty_words twenty_three_words) = 23
  ∧ roundedPercent 23 40 = 58%Z
  ∧ (∀ st, pronunciationScore (scoreWords forty_words twenty_three_words st)
           = Some (JInt 57))
  ∧ matches (align [js "a"] [[]]) = 1
  ∧ roundedPercent 1 1 = 100%Z
  ∧ (∀ st, pronunciationScore (scoreWords [js "a"] [[]] st)
           = Some (JInt 0)).
Proof.
  split; [| repeat split].
  intros Hclaim.
  pose proof (Hclaim forty_words twenty_three_words
                (fresh_test EmptyString EmptyString)
                ltac:(discriminate) ltac:(discriminate) ltac:(discriminate))
    as Hspec.
  assert (pronunciationScore
            (scoreWords forty_words twenty_three_words
               (fresh_test EmptyString EmptyString)) = Some (JInt 57))
    as Hcode by (vm_compute; reflexivity).
  assert (Z.min 100
            (roundedPercent (matches (align forty_words twenty_three_words))
               (length forty_words)) = 58%Z)
    as Hround by (vm_compute; reflexivity).
  rewrite Hcode, Hround in Hspec. discriminate Hspec.
Qed.

(** C4, amended. For a target sequence that is not empty (an array has
    fewer than [2^32] elements) the score is an integer from 0 to 100,
    whatever the spoken sequence.  At the guard it is 0.  Past the
    guard it is [Math.round((matches / n) * 100)] as the doubles give
    it, which the clamp leaves as it is, for the number of matches of
    the pass, which is at most [n]: an integer within a half of
    [100 matches / n], so the rounded percentage, or one less than it
    when [100 matches / n] lies halfway between two integers. *)
Theorem score_formula (T S : list jsstring) (st : SkillTest) :
  let n := length T in
  let m := matches (align T S) in
  let result := pronunciationScore (scoreWords T S st) in
  0 < n → (Z.of_nat n < 2 ^ 32)%Z →
  m ≤ n
  ∧ ∃ k : Z,
      result = Some (JInt k)
      ∧ (0 ≤ k ≤ 100)%Z
      ∧ (S = [] ∨ S = [[]] → k = 0%Z)
      ∧ (S ≠ [] → S ≠ [[]] →
         calculatedScore m n = JInt k
         ∧ (200 * Z.of_nat m - Z.of_nat n ≤ 2 * Z.of_nat n * k
            ≤ 200 * Z.of_nat m + Z.of_nat n)%Z
         ∧ (k = roundedPercent m n ∨ k = roundedPercent m n - 1)%Z
         ∧ (((200 * Z.of_nat m + Z.of_nat n) `mod` (2 * Z.of_nat n))%Z ≠ 0%Z
            → k = roundedPercent m n)).
Proof.
  intros n m result Hn Hbound.
  pose proof (matches_le_length S T align_init) as Hle. simpl in Hle.
  fold (align T S) in Hle. fold n m in Hle.
  split; [done |]. unfold result.
  destruct (decide (S = [] ∨ S = [[]])) as [HS|HS].
  - exists 0%Z. rewrite scoreWords_guard by done.
    split; [done |]. split; [lia |]. split; [done |]. tauto.
  - destruct (scoreWords_percent T S st) as (k & Hk & Hnear & Hrange & ->);
      [tauto | tauto | done | done |].
    exists k. split; [done |]. split; [done |]. split; [tauto |].
    intros _ _. split; [done |]. split; [done |].
    by apply nearest_is_rounded.
Qed.

(** Two matches of four target words: 50, which is no tie. *)
Lemma score_formula_witness :
  pronunciationScore
    (scoreWords one_four_target one_four_spoken
       (fresh_test "one two three four" "one four")) = Some (JInt 50).
Proof.
  destruct (score_formula one_four_target one_four_spoken
              (fresh_test "one two three four" "one four"))
    as (_ & k & Hres & _ & _ & Hrun); [simpl; lia | reflexivity |].
  destruct Hrun as (_ & _ & _ & Hexact); [discriminate | discriminate |].
  rewrite Hres, Hexact; [reflexivity |]. vm_compute. discriminate.
Defined.

(** C10. When the spoken sequence passes the guard, the test score is
    set to one answer out of one, counted correct exactly when the
    percentage is at least 70.  The percentage is the integer within a
    half of [100 matches / n] that is stored as the pronunciation
    score, so the answer is correct when at least 70 of 100 target
    words are matched, and also from 69.5 of 100 on, and it is not
    correct below 69.5 of 100. *)
Theorem pass_mark_70 (T S : list jsstring) (st : SkillTest) :
  let n := length T in
  let m := matches (align T S) in
  let result := scoreWords T S st in
  S ≠ [] → S ≠ [[]] → 0 < n → (Z.of_nat n < 2 ^ 32)%Z →
  ∃ k : Z,
    calculatedScore m n = JInt k
    ∧ pronunciationScore result = Some (JInt k)
    ∧ (200 * Z.of_nat m - Z.of_nat n ≤ 2 * Z.of_nat n * k
       ≤ 200 * Z.of_nat m + Z.of_nat n)%Z
    ∧ total (score result) = 1
    ∧ (correct (score result) = 1 ↔ (70 ≤ k)%Z)
    ∧ (correct (score result) = 0 ↔ (k < 70)%Z)
    ∧ (7 * n ≤ 10 * m → score result = {| correct := 1; total := 1 |})
    ∧ (139 * n < 200 * m → score result = {| correct := 1; total := 1 |})
    ∧ (200 * m < 139 * n → score result = {| correct := 0; total := 1 |}).
Proof.
  intros n m result Hnil Hblank Hn Hbound. unfold result.
  destruct (scoreWords_percent T S st) as (k & Hk & Hnear & Hrange & ->);
    [done | done | done | done |].
  fold n m in Hk, Hnear.
  exists k. split; [done |]. split; [done |]. split; [done |].
  cbn [score total correct setScore setPronunciationScore].
  split; [done |].
  destruct (bool_decide_reflect (70 ≤ k)%Z) as [Hge|Hlt].
  - split; [by split |]. split; [split; [intros [=] | lia] |].
    split; [done |]. split; [done |]. intros Hfail. exfalso. nia.
  - split; [split; [intros [=] | lia] |]. split; [split; [lia | done] |].
    split; [intros Hpass; exfalso; nia |].
    split; [intros Hpass; exfalso; nia | done].
Qed.

(** Three matches of four target words are a pass, two are not. *)
Lemma pass_mark_70_witness :
  score (scoreWords one_four_target one_two_four_spoken
           (fresh_test "one two three four" "one two four"))
  = {| correct := 1; total := 1 |}
  ∧ score (scoreWords one_four_target one_four_spoken
             (fresh_test "one two three four" "one four"))
    = {| correct := 0; total := 1 |}.
Proof.
  split.
  - destruct (pass_mark_70 one_four_target one_two_four_spoken
                (fresh_test "one two three four" "one two four"))
      as (k & _ & _ & _ & _ & _ & _ & Hpass & _);
      [discriminate | discriminate | simpl; lia | reflexivity |].
    apply Hpass. vm_compute. lia.
  - destruct (pass_mark_70 one_four_target one_four_spoken
                (fresh_test "one two three four" "one four"))
      as (k & _ & _ & _ & _ & _ & _ & _ & _ & Hfail);
      [discriminate | discriminate | simpl; lia | reflexivity |].
    apply Hfail. vm_compute. lia.
Defined.

(** At 69.5 of 100 exactly, the doubles give 69.5 and the answer is
    correct. *)
Remark calculatedScore_139_of_200 : calculatedScore 139 200 = JInt 70.
Proof. reflexivity. Qed.

(** The same for the function on the component state. *)
Corollary calculateSpeakingScore_pass_mark
    (toLowerCase : jsstring → jsstring) (st : SkillTest)
    (data : SpeakingStory) :
  speakingData st = Some data →
  words toLowerCase (spokenText st) ≠ [[]] →
  ∃ pct,
    pronunciationScore (calculateSpeakingScore toLowerCase st) = Some pct
    ∧ score (calculateSpeakingScore toLowerCase st) =
      {| correct := if number_ge pct (JInt 70) then 1 else 0; total := 1 |}.
Proof.
  intros Hdata Hwords. unfold calculateSpeakingScore. rewrite Hdata.
  rewrite scoreWords_run; [| apply split_not_nil | done].
  cbn [pronunciationScore score setScore setPronunciationScore].
  eexists. split; [done |]. by rewrite number_ge_clamp.
Qed.

(** C9. For the target words one, two, three, four and the spoken words
    one, four, the cursor walk is: "one" found at 0, "two" and "three"
    not found in the window that holds only "four", "four" found at 1;
    two matches of four, and the score is 50. *)
Theorem one_four_scores_50 :
  align_trace one_four_spoken align_init one_four_target
  = [ {| matches := 1; spokenIdx := 1; foundMatch := true |};
      {| matches := 1; spokenIdx := 1; foundMatch := false |};
      {| matches := 1; spokenIdx := 1; foundMatch := false |};
      {| matches := 2; spokenIdx := 2; foundMatch := true |} ]
  ∧ getLevenshteinDistance (js "two") (js "four") = Some 4
  ∧ getLevenshteinDistance (js "three") (js "four") = Some 5
  ∧ matches (align one_four_target one_four_spoken) = 2
  ∧ (∀ st, pronunciationScore
             (scoreWords one_four_target one_four_spoken st)
           = Some (JInt 50))
  ∧ pronunciationScore
      (calculateSpeakingScore ascii_toLowerCase
         (fresh_test "One, two, three, four." "one four"))
    = Some (JInt 50).
Proof. repeat split. Qed.

(** ** Normalized text *)

Lemma isWordChar_spec c :
  isWordChar c = true ↔
  (48 ≤ c ≤ 57 ∨ 65 ≤ c ≤ 90 ∨ c = 95 ∨ 97 ≤ c ≤ 122)%N.
Proof.
  unfold isWordChar.
  rewrite !orb_true_iff, !andb_true_iff, !N.leb_le, N.eqb_eq. lia.
Qed.

Lemma isWhiteSpace_spec c :
  isWhiteSpace c = true ↔
  (9 ≤ c ≤ 13 ∨ c = 32 ∨ c = 160 ∨ c = 5760 ∨ 8192 ≤ c ≤ 8202 ∨ c = 8232
   ∨ c = 8233 ∨ c = 8239 ∨ c = 8287 ∨ c = 12288 ∨ c = 65279)%N.
Proof.
  unfold isWhiteSpace.
  rewrite !orb_true_iff, !andb_true_iff, !N.leb_le, !N.eqb_eq. lia.
Qed.

Lemma isLowerAlnum_spec c :
  isLowerAlnum c = true ↔ (48 ≤ c ≤ 57 ∨ 97 ≤ c ≤ 122)%N.
Proof.
  unfold isLowerAlnum.
  rewrite !orb_true_iff, !andb_true_iff, !N.leb_le. lia.
Qed.

Lemma isUpper_spec c : isUpper c = true ↔ (65 ≤ c ≤ 90)%N.
Proof. unfold isUpper. rewrite !andb_true_iff, !N.leb_le. lia. Qed.

Lemma isStripped_spec c :
  isStripped c = false ↔
  (isWordChar c = true ∨ isWhiteSpace c = true) ∧ c ≠ 95%N.
Proof.
  unfold isStripped.
  rewrite orb_false_iff, negb_false_iff, orb_true_iff, N.eqb_neq. done.
Qed.

(** What is kept and is not white space is a lowercase letter or a
    digit, if it is no uppercase letter. *)
Lemma kept_lower_alnum c :
  isUpper c = false →
  negb (isStripped c) && negb (isWhiteSpace c) = isLowerAlnum c.
Proof.
  intros Hup. apply eq_true_iff_eq.
  rewrite andb_true_iff, !negb_true_iff, isStripped_spec, isLowerAlnum_spec.
  rewrite <- not_true_iff_false in Hup. rewrite isUpper_spec in Hup.
  rewrite <- (not_true_iff_false (isWhiteSpace c)).
  rewrite isWordChar_spec, isWhiteSpace_spec. lia.
Qed.



Section NormalizeFacts.

Variable toLowerCase : jsstring → jsstring.

Local Abbreviation norm := (normalize toLowerCase).
Local Abbreviation tokens := (words toLowerCase).

Lemma normalize_spaced s : starts_clean (norm s) ∧ spaced False (norm s).
Proof.
  unfold normalize, trim, collapse.
  destruct (collapse_from_spaced false (strip (toLowerCase s))) as [Hsp _].
  destruct (trimStart_spaced True _ Hsp) as [Hsp' Hst].
  split; [by apply trimEnd_starts_clean | by apply trimEnd_spaced].
Qed.

Lemma normalize_elem s c :
  c ∈ norm s →
  c = space ∨ (c ∈ toLowerCase s ∧ isStripped c = false
               ∧ isWhiteSpace c = false).
Proof.
  intros Hc. unfold normalize, trim, collapse in Hc.
  eapply elem_of_sublist in Hc; [| apply trimEnd_sublist].
  eapply elem_of_sublist in Hc; [| apply trimStart_sublist].
  apply collapse_from_elem in Hc as [->|[Hc Hws]]; [by left | right].
  unfold strip in Hc. apply list_elem_of_In, filter_In in Hc as [Hc Hkeep].
  apply negb_true_iff in Hkeep. by rewrite list_elem_of_In.
Qed.



(** Text of white space and stripped code units only has no words. *)
Lemma words_blank s :
  forallb (λ c, isStripped c || isWhiteSpace c) (toLowerCase s) = true →
  tokens s = [[]].
Proof.
  intros Hall. unfold words, normalize.
  assert (forallb isWhiteSpace (strip (toLowerCase s)) = true) as Hstrip.
  { unfold strip. induction (toLowerCase s) as [|c r IH]; [done |].
    simpl in *. apply andb_true_iff in Hall as [Hc Hr].
    destruct (isStripped c); simpl in *; [by apply IH |].
    rewrite Hc. by apply IH. }
  assert (∀ b r, forallb isWhiteSpace r = true →
                 forallb isWhiteSpace (collapse_from b r) = true) as Hcol.
  { intros b r. revert b. induction r as [|c r IH]; intros b; [done |].
    simpl. intros [Hc Hr]%andb_true_iff. rewrite Hc.
    destruct b; simpl; by rewrite ?isWhiteSpace_space, IH. }
  unfold trim, collapse. rewrite trimStart_all by by apply Hcol.
  reflexivity.
Qed.

End NormalizeFacts.




(** A transcript of white space and punctuation only is scored 0. *)
Corollary blank_transcript_scores_zero (toLowerCase : jsstring → jsstring)
    (st : SkillTest) (data : SpeakingStory) :
  speakingData st = Some data →
  forallb (λ c, isStripped c || isWhiteSpace c)
    (toLowerCase (spokenText st)) = true →
  calculateSpeakingScore toLowerCase st = setPronunciationScore (JInt 0) st.
Proof.
  intros Hdata Hblank. unfold calculateSpeakingScore. rewrite Hdata.
  rewrite (words_blank toLowerCase _ Hblank).
  apply scoreWords_guard. by right.
Qed.

(** * Further properties *)

(** ** Edit distance as a metric *)

Lemma transforms_0_eq x y : transforms 0 x y → x = y.
Proof. by inversion 1. Qed.

Lemma lev_0_eq x y : lev x y = 0 ↔ x = y.
Proof.
  split.
  - intros H0. apply transforms_0_eq. rewrite <- H0. apply lev_transforms.
  - intros ->. apply lev_refl.
Qed.

Lemma lev_triangle x y z : lev x z ≤ lev x y + lev y z.
Proof.
  apply transforms_lev.
  eapply transforms_app; apply lev_transforms.
Qed.

Lemma lev_le_max x y : lev x y ≤ Nat.max (length x) (length y).
Proof.
  revert y. induction x as [|c x IHx]; intros y; [simpl; lia |].
  destruct y as [|d y]; [rewrite lev_nil_r; lia |].
  rewrite lev_cons_cons. specialize (IHx y). simpl.
  case_decide; lia.
Qed.

Lemma edit1_length x y :
  edit1 x y → length x ≤ length y + 1 ∧ length y ≤ length x + 1.
Proof. intros [l c r|l c r|l c c' r]; rewrite !length_app; simpl; lia. Qed.

Lemma transforms_length n x y :
  transforms n x y → length x ≤ length y + n ∧ length y ≤ length x + n.
Proof.
  induction 1 as [x|n x y z Hxy _ IH]; [lia |].
  apply edit1_length in Hxy. lia.
Qed.

Lemma lev_length x y :
  length x ≤ length y + lev x y ∧ length y ≤ length x + lev x y.
Proof. apply transforms_length, lev_transforms. Qed.

(** X1. The distance between two strings is 0 exactly when they are
    the same string. *)
Theorem getLevenshteinDistance_zero (a b : jsstring) :
  getLevenshteinDistance a b = Some 0 ↔ a = b.
Proof.
  rewrite getLevenshteinDistance_lev. split.
  - intros [= H0]. by apply lev_0_eq.
  - intros ->. by rewrite lev_refl.
Qed.

(** X2. The distances obey the triangle inequality: going through a
    third string is never shorter. *)
Theorem getLevenshteinDistance_triangle (a b c : jsstring) :
  ∃ dab dbc dac,
    getLevenshteinDistance a b = Some dab
    ∧ getLevenshteinDistance b c = Some dbc
    ∧ getLevenshteinDistance a c = Some dac
    ∧ dac ≤ dab + dbc.
Proof.
  exists (lev a b), (lev b c), (lev a c).
  rewrite !getLevenshteinDistance_lev. repeat split. apply lev_triangle.
Qed.

(** X3. The distance is at least the difference of the two lengths and
    at most the greater length. *)
Theorem getLevenshteinDistance_bounds (a b : jsstring) :
  ∃ d, getLevenshteinDistance a b = Some d
       ∧ length a - length b ≤ d
       ∧ length b - length a ≤ d
       ∧ d ≤ Nat.max (length a) (length b).
Proof.
  exists (lev a b). rewrite getLevenshteinDistance_lev.
  pose proof (lev_length a b). pose proof (lev_le_max a b).
  repeat split; lia.
Qed.

(** ** What a pass can match *)

Lemma align_word_bounded S st t :
  matches st ≤ spokenIdx st ≤ length S →
  matches (align_word S st t) ≤ spokenIdx (align_word S st t) ≤ length S.
Proof.
  intros Hst. rewrite align_word_search.
  destruct (search t S (spokenIdx st)) as [k|] eqn:Hs; simpl; [| done].
  apply search_Some in Hs. lia.
Qed.

Lemma align_from_bounded S T st :
  matches st ≤ spokenIdx st ≤ length S →
  matches (align_from S st T) ≤ spokenIdx (align_from S st T) ≤ length S.
Proof.
  revert st. induction T as [|t T IH]; intros st Hst; [done |].
  rewrite align_from_cons. by apply IH, align_word_bounded.
Qed.

(** X4. A pass matches no more target words than there are spoken
    words (nor than there are target words): the count of matches is at
    most the cursor, and the cursor never passes the end of the spoken
    words. *)
Theorem matches_at_most_spoken (T S : list jsstring) :
  matches (align T S) ≤ spokenIdx (align T S)
  ∧ spokenIdx (align T S) ≤ length S
  ∧ matches (align T S) ≤ length S
  ∧ matches (align T S) ≤ length T.
Proof.
  pose proof (align_from_bounded S T align_init) as Hb.
  pose proof (matches_le_length S T align_init) as Hl.
  simpl in Hb, Hl. fold (align T S) in Hb, Hl.
  specialize (Hb ltac:(lia)). lia.
Qed.

(** X5. A spoken word is only ever matched to a target word whose
    length is within the allowed edits of its own: at most 2 characters
    apart, and at most 1 for a target word of 5 characters or fewer. *)
Theorem matched_word_length (S : list jsstring) (st : Align) (t : jsstring) :
  foundMatch (align_word S st t) = true →
  ∃ w, S !! (spokenIdx (align_word S st t) - 1) = Some w
       ∧ length w ≤ length t + allowedEdits t
       ∧ length t ≤ length w + allowedEdits t
       ∧ allowedEdits t ≤ 2
       ∧ (length t ≤ 5 → allowedEdits t = 1).
Proof.
  rewrite align_word_search.
  destruct (search t S (spokenIdx st)) as [k|] eqn:Hs; simpl; [| done].
  intros _. rewrite Nat.add_sub.
  apply search_Some in Hs as (_ & (w & Hw & Hacc) & _).
  exists w. split; [done |]. apply accepts_lev in Hacc.
  pose proof (lev_length t w). unfold allowedEdits in *.
  repeat split; case_decide; lia.
Qed.

Lemma matched_word_length_witness :
  ∃ w, [js "hapy"] !! 0 = Some w ∧ length w ≤ 5 + 1.
Proof.
  destruct (matched_word_length [js "hapy"] align_init (js "happy") eq_refl)
    as (w & Hw & Hlen & _).
  exists w. split; [exact Hw | exact Hlen].
Defined.

(** X6. Two words of at most one character always match, whatever the
    characters are: a one-letter target word accepts any one-letter
    spoken word, and the empty token. *)
Theorem short_words_always_match (t s : jsstring) :
  length t ≤ 1 → length s ≤ 1 →
  accepts t s = true ∧ matches (align [t] [s]) = 1.
Proof.
  intros Ht Hs.
  assert (accepts t s = true) as Hacc.
  { apply accepts_lev. pose proof (lev_le_max t s).
    pose proof (allowedEdits_pos t). lia. }
  split; [done |].
  unfold align, align_from. simpl. rewrite align_word_search.
  unfold search, window_size. simpl. by rewrite Hacc.
Qed.

Lemma short_words_always_match_witness :
  matches (align [js "a"] [js "i"]) = 1.
Proof.
  apply (short_words_always_match (js "a") (js "i")); simpl; lia.
Defined.

(** ** A transcript that repeats the target *)

Lemma align_from_same P T st :
  spokenIdx st = length P →
  matches (align_from (P ++ T) st T) = matches st + length T.
Proof.
  revert P st. induction T as [|t T IH]; intros P st Hc; simpl; [lia |].
  fold (align_from (P ++ t :: T) (align_word (P ++ t :: T) st t) T).
  assert (search t (P ++ t :: T) (spokenIdx st) = Some (length P)) as Hs.
  { apply search_Some. rewrite Hc, length_app. simpl.
    split; [unfold SEARCH_WINDOW; lia |]. split.
    - exists t. rewrite list_lookup_middle by done. split; [done |].
      apply accepts_spec. by left.
    - intros k' w' Hk'. lia. }
  rewrite align_word_search, Hs.
  replace (P ++ t :: T) with ((P ++ [t]) ++ T) by (by rewrite <- app_assoc).
  rewrite IH; [simpl; lia |].
  simpl. rewrite length_app. simpl. lia.
Qed.

Lemma align_same T : matches (align T T) = length T.
Proof. apply (align_from_same [] T align_init). done. Qed.

Local Open Scope Z_scope.

(** A positive double divided by itself is 1. *)
Lemma fdiv_self m e :
  fdiv (S754_finite false m e) (S754_finite false m e)
  = S754_finite false 4503599627370496 (-52).
Proof.
  unfold fdiv, SFdiv, SFdiv_core_binary.
  replace (Zdigits2 (Z.pos m) + e - (Zdigits2 (Z.pos m) + e)) with 0 by lia.
  replace (e - e) with 0 by lia.
  change (Z.min (fexp 53 1024 0) 0) with (-53).
  change (0 - -53) with 53.
  cbv beta iota zeta.
  rewrite Z.shiftl_mul_pow2 by lia.
  pose proof (Z.div_mul (2 ^ 53) (Z.pos m) ltac:(lia)) as Hq.
  pose proof (Z.mod_mul (2 ^ 53) (Z.pos m) ltac:(lia)) as Hr.
  rewrite (Z.mul_comm (2 ^ 53)) in Hq, Hr.
  unfold Z.div, Z.modulo in Hq, Hr.
  destruct (Z.div_eucl (Z.pos m * 2 ^ 53) (Z.pos m)) as [q r].
  simpl in Hq, Hr. subst q r.
  assert (new_location (Z.pos m) 0 = loc_Exact) as ->.
  { unfold new_location, new_location_even, new_location_odd.
    by destruct (Z.even (Z.pos m)). }
  reflexivity.
Qed.

Lemma calculatedScore_full (n : nat) :
  0 < Z.of_nat n < 2 ^ 53 → calculatedScore n n = JInt 100.
Proof.
  intros Hn. unfold calculatedScore.
  destruct (double_of_nat_pos n Hn) as (m & e & ->).
  rewrite fdiv_self. reflexivity.
Qed.

Local Close Scope Z_scope.

(** X7. Reading the target back word for word matches every target
    word and scores 100, which passes; the one exception is a target
    without any word, whose repetition is scored 0 by the guard. *)
Theorem identical_transcript_scores_100 (T : list jsstring) (st : SkillTest) :
  T ≠ [] → T ≠ [[]] → (Z.of_nat (length T) < 2 ^ 32)%Z →
  matches (align T T) = length T
  ∧ pronunciationScore (scoreWords T T st) = Some (JInt 100)
  ∧ score (scoreWords T T st) = {| correct := 1; total := 1 |}.
Proof.
  intros Hnil Hblank Hlen. split; [apply align_same |].
  rewrite scoreWords_run by done. rewrite align_same.
  rewrite calculatedScore_full; [done |].
  destruct T; [done |]. simpl length in *. lia.
Qed.

Lemma identical_transcript_scores_100_witness :
  pronunciationScore
    (scoreWords one_four_target one_four_target
       (fresh_test "one two three four" "one two three four"))
  = Some (JInt 100).
Proof.
  apply (identical_transcript_scores_100 one_four_target
           (fresh_test "one two three four" "one two three four"));
    [discriminate | discriminate | reflexivity].
Defined.

(** ** Normalizing twice *)

Lemma collapse_from_fixed at_end b s :
  spaced at_end s → (b = true → starts_clean s) → collapse_from b s = s.
Proof.
  revert b. induction s as [|c r IH]; intros b Hsp Hst; [done |].
  destruct Hsp as [Hc Hr]. simpl.
  destruct (isWhiteSpace c) eqn:Hws.
  - destruct (Hc eq_refl) as [-> Hnext].
    destruct b; [by specialize (Hst eq_refl) |].
    f_equal. apply IH; [done |]. intros _. by destruct r.
  - f_equal. by apply IH.
Qed.

Lemma trimStart_fixed s : starts_clean s → trimStart s = s.
Proof. destruct s as [|c r]; [done |]. simpl. by intros ->. Qed.

Lemma trimEnd_fixed s : spaced False s → trimEnd s = s.
Proof.
  induction s as [|c r IH]; [done |].
  intros [Hc Hr]. rewrite trimEnd_cons.
  destruct (forallb isWhiteSpace (c :: r)) eqn:Hall.
  - simpl in Hall. apply andb_true_iff in Hall as [Hws Hrest].
    destruct (Hc Hws) as [_ Hnext]. destruct r as [|d r']; [done |].
    simpl in Hrest. by rewrite Hnext in Hrest.
  - f_equal. by apply IH.
Qed.

Lemma strip_fixed s :
  Forall (λ c, c = space ∨ isLowerAlnum c = true) s → strip s = s.
Proof.
  induction 1 as [|c r Hc _ IH]; [done |].
  unfold strip in *. simpl. rewrite IH.
  assert (isStripped c = false) as ->; [| done].
  apply isStripped_spec. destruct Hc as [->|Hc]; [split; [by right | done] |].
  apply isLowerAlnum_spec in Hc. rewrite isWordChar_spec. lia.
Qed.

Lemma normalize_chars (toLowerCase : jsstring → jsstring) (s : jsstring) :
  forallb (λ c, negb (isUpper c)) (toLowerCase s) = true →
  Forall (λ c, c = space ∨ isLowerAlnum c = true) (normalize toLowerCase s).
Proof.
  intros Hlower. rewrite forallb_forall in Hlower.
  apply Forall_forall. intros c Hc.
  apply normalize_elem in Hc as [->|(Hc & Hst & Hws)]; [by left | right].
  rewrite <- (kept_lower_alnum c), Hst, Hws; [done |].
  apply negb_true_iff, Hlower. by apply list_elem_of_In.
Qed.

(** X8. Normalization is idempotent: normalized text, which
    [toLowerCase] leaves as it is, normalizes to itself, so it gives the
    same tokens when it is normalized again. *)
Theorem normalize_idempotent (toLowerCase : jsstring → jsstring)
    (s : jsstring) :
  forallb (λ c, negb (isUpper c)) (toLowerCase s) = true →
  toLowerCase (normalize toLowerCase s) = normalize toLowerCase s →
  normalize toLowerCase (normalize toLowerCase s) = normalize toLowerCase s
  ∧ words toLowerCase (normalize toLowerCase s) = words toLowerCase s.
Proof.
  intros Hlower Hfix.
  destruct (normalize_spaced toLowerCase s) as [Hstart Hspaced].
  pose proof (normalize_chars toLowerCase s Hlower) as Hchars.
  assert (normalize toLowerCase (normalize toLowerCase s)
          = normalize toLowerCase s) as Hidem.
  { unfold normalize at 1. rewrite Hfix.
    rewrite strip_fixed by done. unfold collapse, trim.
    rewrite (collapse_from_fixed False) by done.
    by rewrite trimStart_fixed, trimEnd_fixed. }
  split; [done |]. unfold words. by rewrite Hidem.
Qed.

Lemma normalize_idempotent_witness :
  words ascii_toLowerCase
    (normalize ascii_toLowerCase (js "  Hello,   World! it's_me  "))
  = words ascii_toLowerCase (js "  Hello,   World! it's_me  ").
Proof.
  apply (normalize_idempotent ascii_toLowerCase
           (js "  Hello,   World! it's_me  ")); reflexivity.
Defined.

(** ** The highlighter and the scorer *)







Lemma highlightTest_accepts t sw : highlightTest t sw = accepts t sw.
Proof.
  unfold highlightTest, accepts, exactMatch, fuzzyMatch, allowedEdits.
  case_decide.
  - by rewrite bool_decide_eq_true_2.
  - by rewrite bool_decide_eq_false_2.
Qed.

(** X9. With some speech, a word is shown green exactly when one of
    the spoken words, anywhere in the transcript, is within the allowed
    edits of the word with its punctuation removed, and grey otherwise;
    without speech every word has the neutral colour. *)
Theorem highlight_rule (toLowerCase : jsstring → jsstring)
    (spokenText word : jsstring) :
  let cls := getWordHighlightClass toLowerCase spokenText word in
  let target := strip (toLowerCase word) in
  (spokenText = [] → cls = js "text-slate-300")
  ∧ (spokenText ≠ [] →
     (cls = js "text-green-400 font-medium" ↔
      ∃ sw d, sw ∈ highlightWords toLowerCase spokenText
              ∧ getLevenshteinDistance target sw = Some d
              ∧ d ≤ allowedEdits target)
     ∧ (cls = js "text-green-400 font-medium"
        ∨ cls = js "text-slate-500 transition-colors duration-500")).
Proof.
  intros cls target. unfold cls, getWordHighlightClass. split.
  - intros ->. done.
  - intros Hne. rewrite decide_False by done. fold target.
    destruct (existsb _ _) eqn:Hex.
    + split; [| by left]. split; [| done]. intros _.
      apply existsb_exists in Hex as (sw & Hin & Htest).
      rewrite highlightTest_accepts in Htest. apply accepts_lev in Htest.
      exists sw, (lev target sw).
      rewrite getLevenshteinDistance_lev, list_elem_of_In. done.
    + split; [| by right]. split; [done |].
      intros (sw & d & Hin & Hd & Hle). exfalso.
      rewrite getLevenshteinDistance_lev in Hd. injection Hd as <-.
      assert (existsb (highlightTest target)
                (highlightWords toLowerCase spokenText) = true) as Hyes.
      { apply existsb_exists. exists sw. rewrite <- list_elem_of_In.
        split; [done |]. rewrite highlightTest_accepts.
        by apply accepts_lev. }
      congruence.
Qed.



(** ** The quiz *)

Lemma handleEvent_score skill cur ev :
  let cur' := handleEvent skill cur ev in
  (testScore cur' = testScore cur
   ∨ (isAnswer ev = true
      ∧ total (testScore cur') = total (testScore cur) + 1
      ∧ (correct (testScore cur') = correct (testScore cur)
         ∨ correct (testScore cur') = correct (testScore cur) + 1))).
Proof.
  destruct ev as [[o|b|] snap]; simpl.
  - unfold handleOptionSelect.
    destruct (currentQuestion snap) as [q|]; [| by left].
    destruct (truthy (selectedOption snap)); [by left |].
    right. split; [done |].
    destruct (isListeningTest skill || isReadingTest skill);
      destruct (bool_decide (Some o = correctAnswerOf q)); simpl; lia.
  - unfold handleSelfGrade.
    destruct (questionAnswered snap); [by left |].
    right. split; [done |]. destruct b; simpl; lia.
  - left. unfold handleNextQuestion.
    destruct (isListeningTest skill), (isWritingTest skill || isSpeakingTest skill);
      simpl; try done;
      destruct (quizQuestions snap); try done;
      by destruct (_ <? _)%Z.
Qed.

(** X11. Whatever the events and the renders their handlers are from,
    the score never counts more correct answers than answers, neither
    count ever decreases, and the number of answers grows by at most one
    for each selection or self-grading. *)
Theorem score_counts_answers (skill : LearningSkill)
    (evs : list (QuizEvent * Quiz)) (s : Quiz) :
  correct (testScore s) ≤ total (testScore s) →
  let s' := foldl (handleEvent skill) s evs in
  correct (testScore s') ≤ total (testScore s')
  ∧ correct (testScore s) ≤ correct (testScore s')
  ∧ total (testScore s) ≤ total (testScore s')
  ∧ total (testScore s') ≤ total (testScore s) + length (List.filter isAnswer evs).
Proof.
  revert s. induction evs as [|ev evs IH]; intros s Hs; simpl; [lia |].
  pose proof (handleEvent_score skill s ev) as Hstep. simpl in Hstep.
  destruct (IH (handleEvent skill s ev)) as (H1 & H2 & H3 & H4).
  { destruct Hstep as [->|(_ & Ht & [Hc|Hc])]; lia. }
  destruct Hstep as [Heq|(Hans & Ht & Hc)].
  - rewrite Heq in *. destruct (isAnswer ev); simpl; lia.
  - rewrite Hans. simpl. lia.
Qed.

Lemma score_counts_answers_witness :
  let s := {| quizQuestions :=
                Some [ReadingQuestion (js "q") [js "a"; js "b"] (js "a")];
              currentQuestionIndex := 0; testState := in_progress;
              showAnswer := false; questionAnswered := false;
              selectedOption := None; userAnswers := ∅;
              testScore := {| correct := 0; total := 0 |};
              isPlayingAudio := false; activeAudioId := None;
              audioSourceRef := false |} in
  let s' := foldl (handleEvent {| title := js "Reading"; description := [] |})
              s [(SelectOption (js "b"), s)] in
  correct (testScore s') ≤ total (testScore s').
Proof.
  intros s s'.
  apply (score_counts_answers {| title := js "Reading"; description := [] |}
           [(SelectOption (js "b"), s)] s).
  simpl. lia.
Defined.

(** X12. Once an option that is not the empty string is selected for
    the current question, it is recorded and counted once, and selecting
    again from the next render changes nothing. *)
Theorem answer_is_final (skill : LearningSkill) (s : Quiz)
    (o o' : jsstring) :
  is_Some (currentQuestion s) →
  truthy (selectedOption s) = false →
  o ≠ [] →
  let s1 := (handleOptionSelect skill o s s).1 in
  selectedOption s1 = Some o
  ∧ userAnswers s1 !! currentQuestionIndex s = Some o
  ∧ total (testScore s1) = total (testScore s) + 1
  ∧ handleOptionSelect skill o' s1 s1 = (s1, false).
Proof.
  intros [q Hq] Hsel Ho s1.
  assert (selectedOption s1 = Some o ∧ currentQuestion s1 = Some q
          ∧ userAnswers s1 !! currentQuestionIndex s = Some o
          ∧ total (testScore s1) = total (testScore s) + 1)
    as (Hs1 & Hq1 & Hans & Htot).
  { unfold s1, handleOptionSelect. rewrite Hq, Hsel.
    unfold currentQuestion in *.
    destruct (isListeningTest skill || isReadingTest skill);
      destruct (bool_decide (Some o = correctAnswerOf q)); simpl;
      rewrite lookup_insert_eq; done. }
  split; [done |]. split; [done |]. split; [done |].
  unfold handleOptionSelect at 1. rewrite Hq1, Hs1.
  destruct o; [done | reflexivity].
Qed.

Lemma answer_is_final_witness :
  let s := {| quizQuestions :=
                Some [ReadingQuestion (js "q") [js "a"; js "b"] (js "a")];
              currentQuestionIndex := 0; testState := in_progress;
              showAnswer := false; questionAnswered := false;
              selectedOption := None; userAnswers := ∅;
              testScore := {| correct := 0; total := 0 |};
              isPlayingAudio := false; activeAudioId := None;
              audioSourceRef := false |} in
  let skill := {| title := js "Reading"; description := [] |} in
  let s1 := (handleOptionSelect skill (js "b") s s).1 in
  handleOptionSelect skill (js "a") s1 s1 = (s1, false).
Proof.
  intros s skill s1.
  apply (answer_is_final skill s (js "b") (js "a"));
    [by eexists | reflexivity | discriminate].
Defined.

(** X13. From the latest render of a quiz whose current question
    exists, going on either moves to the next question, which exists, or,
    at the last question, completes the test; the selection and the
    answered flag are cleared and the score and the answers are kept. A
    writing or speaking test completes at once. *)
Theorem next_question_in_range (skill : LearningSkill) (s : Quiz)
    (qs : list QuizQuestion) :
  quizQuestions s = Some qs →
  currentQuestionIndex s < length qs →
  let s' := handleNextQuestion skill s s in
  selectedOption s' = None ∧ questionAnswered s' = false
  ∧ showAnswer s' = false
  ∧ testScore s' = testScore s ∧ userAnswers s' = userAnswers s
  ∧ quizQuestions s' = Some qs
  ∧ currentQuestionIndex s' < length qs
  ∧ (if isWritingTest skill || isSpeakingTest skill
     then testState s' = completed
          ∧ currentQuestionIndex s' = currentQuestionIndex s
     else if decide (currentQuestionIndex s + 1 < length qs)
     then currentQuestionIndex s' = currentQuestionIndex s + 1
          ∧ testState s' = testState s
     else currentQuestionIndex s' = currentQuestionIndex s
          ∧ testState s' = completed).
Proof.
  intros Hqs Hidx s'. unfold s', handleNextQuestion. rewrite Hqs.
  destruct (isWritingTest skill || isSpeakingTest skill).
  { by destruct (isListeningTest skill). }
  case_decide as Hlast.
  - rewrite (proj2 (Z.ltb_lt _ _)) by lia.
    destruct (isListeningTest skill); simpl; repeat split; done || lia.
  - rewrite (proj2 (Z.ltb_ge _ _)) by lia.
    by destruct (isListeningTest skill).
Qed.

Lemma next_question_in_range_witness :
  let s := {| quizQuestions :=
                Some [StandardQuiz (js "q") (js "a");
                      StandardQuiz (js "r") (js "b")];
              currentQuestionIndex := 0; testState := in_progress;
              showAnswer := true; questionAnswered := true;
              selectedOption := None; userAnswers := ∅;
              testScore := {| correct := 1; total := 1 |};
              isPlayingAudio := false; activeAudioId := None;
              audioSourceRef := false |} in
  currentQuestionIndex
    (handleNextQuestion {| title := js "Grammar"; description := [] |} s s)
  < 2.
Proof.
  intros s.
  apply (next_question_in_range {| title := js "Grammar"; description := [] |}
           s [StandardQuiz (js "q") (js "a"); StandardQuiz (js "r") (js "b")]);
    [reflexivity | simpl; lia].
Defined.

Lemma reading_not_writing skill :
  isListeningTest skill || isReadingTest skill = true →
  isWritingTest skill || isSpeakingTest skill = false.
Proof.
  unfold isListeningTest, isReadingTest, isWritingTest, isSpeakingTest.
  intros [H|H]%orb_true_iff; apply bool_decide_eq_true in H; rewrite H;
    reflexivity.
Qed.

Lemma answerQuestion_reading skill s qs q o :
  isListeningTest skill || isReadingTest skill = true →
  quizQuestions s = Some qs →
  qs !! currentQuestionIndex s = Some q →
  selectedOption s = None →
  let s' := answerQuestion skill s o in
  quizQuestions s' = Some qs
  ∧ selectedOption s' = None
  ∧ userAnswers s' = <[currentQuestionIndex s := o]> (userAnswers s)
  ∧ testScore s' =
    {| correct := correct (testScore s)
                  + (if bool_decide (Some o = correctAnswerOf q) then 1 else 0);
       total := total (testScore s) + 1 |}
  ∧ (if decide (currentQuestionIndex s + 1 < length qs)
     then currentQuestionIndex s' = currentQuestionIndex s + 1
          ∧ testState s' = testState s
     else currentQuestionIndex s' = currentQuestionIndex s
          ∧ testState s' = completed).
Proof.
  intros Hskill Hqs Hq Hsel s'.
  unfold s', answerQuestion, handleOptionSelect, currentQuestion.
  rewrite Hqs, Hq, Hsel, Hskill. cbn [truthy].
  unfold handleNextQuestion. rewrite Hqs, (reading_not_writing skill Hskill).
  apply lookup_lt_Some in Hq.
  case_decide as Hlast.
  - rewrite (proj2 (Z.ltb_lt _ _)) by lia.
    by destruct (isListeningTest skill).
  - rewrite (proj2 (Z.ltb_ge _ _)) by lia.
    by destruct (isListeningTest skill).
Qed.

Lemma countCorrect_nil_r qs : countCorrect qs [] = 0.
Proof. by destruct qs. Qed.

Lemma countCorrect_le qs answers : countCorrect qs answers ≤ length qs.
Proof.
  revert answers. induction qs as [|q qs IH]; intros [|o answers]; simpl;
    try lia.
  specialize (IH answers). case_bool_decide; lia.
Qed.

Lemma answer_all skill qs :
  isListeningTest skill || isReadingTest skill = true →
  ∀ answers s,
    quizQuestions s = Some qs →
    selectedOption s = None →
    answers ≠ [] →
    currentQuestionIndex s + length answers = length qs →
    let s' := foldl (answerQuestion skill) s answers in
    testState s' = completed
    ∧ currentQuestionIndex s' = length qs - 1
    ∧ selectedOption s' = None
    ∧ testScore s' =
      {| correct := correct (testScore s)
                    + countCorrect (drop (currentQuestionIndex s) qs) answers;
         total := total (testScore s) + length answers |}
    ∧ (∀ k, currentQuestionIndex s ≤ k < length qs →
            userAnswers s' !! k = answers !! (k - currentQuestionIndex s))
    ∧ (∀ k, k < currentQuestionIndex s →
            userAnswers s' !! k = userAnswers s !! k).
Proof.
  intros Hskill answers. induction answers as [|o answers IH]; [done |].
  intros s Hqs Hsel _ Hlen. simpl in Hlen.
  destruct (lookup_lt_is_Some_2 qs (currentQuestionIndex s)) as [q Hq];
    [lia |].
  destruct (answerQuestion_reading skill s qs q o Hskill Hqs Hq Hsel)
    as (Hqs1 & Hsel1 & Hans1 & Hscore1 & Hidx1).
  rewrite (drop_S qs q (currentQuestionIndex s) Hq).
  simpl foldl. set (s1 := answerQuestion skill s o) in *.
  destruct answers as [|o2 answers].
  - simpl. rewrite decide_False in Hidx1 by (simpl in *; lia).
    destruct Hidx1 as [Hi1 Hst1].
    split; [done |]. split; [simpl in *; lia |]. split; [done |].
    split; [rewrite Hscore1, countCorrect_nil_r; f_equal; simpl; lia |]. split.
    + intros k Hk. replace k with (currentQuestionIndex s) by (simpl in *; lia).
      rewrite Hans1, lookup_insert_eq, Nat.sub_diag. done.
    + intros k Hk. rewrite Hans1, lookup_insert_ne by lia. done.
  - rewrite decide_True in Hidx1 by (simpl in *; lia).
    destruct Hidx1 as [Hi1 Hst1].
    destruct (IH s1 Hqs1 Hsel1 ltac:(done)) as (H1 & H2 & H3 & H4 & H5 & H6).
    { rewrite Hi1. simpl in *. lia. }
    split; [done |]. split; [done |]. split; [done |]. split.
    + rewrite H4, Hscore1, Hi1.
      replace (currentQuestionIndex s + 1) with (S (currentQuestionIndex s))
        by lia.
      f_equal; simpl; lia.
    + split.
      * intros k Hk.
        destruct (decide (k = currentQuestionIndex s)) as [->|Hne].
        { rewrite H6 by lia. rewrite Hans1, lookup_insert_eq, Nat.sub_diag.
          done. }
        rewrite H5 by lia. rewrite Hi1.
        replace (k - currentQuestionIndex s)
          with (S (k - (currentQuestionIndex s + 1))) by lia.
        done.
      * intros k Hk. rewrite H6 by lia.
        rewrite Hans1, lookup_insert_ne by lia. done.
Qed.

(** X14. In a reading or listening test, answering every question once,
    each answer followed by its timer, completes the test with as many
    answers counted as there are questions, as many correct ones as
    answers that equal the correct answer of their question, and each
    answer recorded under the index of its question. *)
Theorem answering_every_question (skill : LearningSkill) (s : Quiz)
    (qs : list QuizQuestion) (answers : list jsstring) :
  isListeningTest skill || isReadingTest skill = true →
  quizQuestions s = Some qs →
  currentQuestionIndex s = 0 →
  selectedOption s = None →
  testScore s = {| correct := 0; total := 0 |} →
  qs ≠ [] →
  length answers = length qs →
  let s' := foldl (answerQuestion skill) s answers in
  testState s' = completed
  ∧ testScore s' =
    {| correct := countCorrect qs answers; total := length qs |}
  ∧ correct (testScore s') ≤ total (testScore s')
  ∧ (∀ k, k < length qs → userAnswers s' !! k = answers !! k).
Proof.
  intros Hskill Hqs Hidx Hsel Hscore Hne Hlen s'.
  destruct (answer_all skill qs Hskill answers s Hqs Hsel)
    as (H1 & _ & _ & H4 & H5 & _).
  { intros ->. destruct qs; [done | simpl in Hlen; lia]. }
  { lia. }
  fold s' in H1, H4, H5. rewrite Hidx, Hscore, drop_0 in H4. simpl in H4.
  rewrite Hlen in H4.
  split; [done |]. split; [done |]. split.
  - rewrite H4. simpl. apply countCorrect_le.
  - intros k Hk. rewrite H5 by lia. by rewrite Hidx, Nat.sub_0_r.
Qed.

Lemma answering_every_question_witness :
  let qs := [ReadingQuestion (js "q") [js "a"; js "b"] (js "a");
             ReadingQuestion (js "r") [js "c"; js "d"] (js "d")] in
  let s := {| quizQuestions := Some qs;
              currentQuestionIndex := 0; testState := in_progress;
              showAnswer := false; questionAnswered := false;
              selectedOption := None; userAnswers := ∅;
              testScore := {| correct := 0; total := 0 |};
              isPlayingAudio := false; activeAudioId := None;
              audioSourceRef := false |} in
  testScore
    (foldl (answerQuestion {| title := js "Reading"; description := [] |})
       s [js "a"; js "c"])
  = {| correct := 1; total := 2 |}.
Proof.
  intros qs s.
  apply (answering_every_question
           {| title := js "Reading"; description := [] |} s qs
           [js "a"; js "c"]); try reflexivity.
  discriminate.
Defined.

(** ** A second advance *)

(** X15. In a reading or listening test the button for the next
    question is shown as soon as a non-empty option is selected, and
    going on with it before the timer of the answer fires advances
    twice: the next question is passed over with no answer recorded,
    and when it was the last question the index leaves the questions
    with the test still in progress, where no selection has any
    effect. *)
Theorem next_before_timer_skips (skill : LearningSkill) (s : Quiz)
    (qs : list QuizQuestion) (o : jsstring) :
  isListeningTest skill || isReadingTest skill = true →
  quizQuestions s = Some qs →
  currentQuestionIndex s + 1 < length qs →
  selectedOption s = None →
  let s1 := (handleOptionSelect skill o s s).1 in
  let s2 := handleNextQuestion skill s1 s1 in
  let s3 := handleNextQuestion skill s s2 in
  (handleOptionSelect skill o s s).2 = true
  ∧ (o ≠ [] → ∀ w p, isCurrentQuestionAnswered skill w p s1 = true)
  ∧ currentQuestionIndex s3 = currentQuestionIndex s + 2
  ∧ testState s3 = testState s
  ∧ total (testScore s3) = total (testScore s) + 1
  ∧ userAnswers s3 !! (currentQuestionIndex s + 1)
    = userAnswers s !! (currentQuestionIndex s + 1)
  ∧ (currentQuestionIndex s + 2 = length qs →
     currentQuestion s3 = None
     ∧ ∀ o', handleOptionSelect skill o' s3 s3 = (s3, false)).
Proof.
  intros Hskill Hqs Hidx Hsel s1 s2 s3.
  destruct (lookup_lt_is_Some_2 qs (currentQuestionIndex s)) as [q Hq];
    [lia |].
  assert (Hsel1 : handleOptionSelect skill o s s
    = (countAnswer (bool_decide (Some o = correctAnswerOf q))
         (setUserAnswers (<[currentQuestionIndex s := o]> (userAnswers s))
            (setSelectedOption (Some o) s)), true)).
  { unfold handleOptionSelect, currentQuestion.
    by rewrite Hqs, Hq, Hsel, Hskill. }
  unfold s3, s2, s1. rewrite Hsel1. cbn [fst snd]. clear Hsel1 s1 s2 s3.
  destruct s as [qq i ts sa qa so ua sc pa aa ar].
  cbn in Hqs, Hidx, Hsel, Hq. subst qq so.
  unfold handleNextQuestion.
  rewrite (reading_not_writing skill Hskill).
  split; [done |].
  split.
  { intros Ho w p. unfold isCurrentQuestionAnswered.
    rewrite orb_comm, Hskill. cbn. by destruct o. }
  destruct (isListeningTest skill); cbn -[Z.of_nat Z.ltb Z.sub];
    rewrite !(proj2 (Z.ltb_lt _ _)) by lia; cbn;
    (split; [lia |]); (split; [done |]); (split; [lia |]);
    (split; [by rewrite lookup_insert_ne by lia |]);
    intros Hlast; unfold currentQuestion, handleOptionSelect; cbn;
    rewrite lookup_ge_None_2 by lia; done.
Qed.

Lemma next_before_timer_skips_witness :
  let qs := [ReadingQuestion (js "q") [js "a"; js "b"] (js "a");
             ReadingQuestion (js "r") [js "c"; js "d"] (js "d")] in
  let s := {| quizQuestions := Some qs;
              currentQuestionIndex := 0; testState := in_progress;
              showAnswer := false; questionAnswered := false;
              selectedOption := None; userAnswers := ∅;
              testScore := {| correct := 0; total := 0 |};
              isPlayingAudio := false; activeAudioId := None;
              audioSourceRef := false |} in
  let skill := {| title := js "Reading"; description := [] |} in
  currentQuestionIndex
    (handleNextQuestion skill s
       (handleNextQuestion skill (handleOptionSelect skill (js "a") s s).1
          (handleOptionSelect skill (js "a") s s).1)) = 2.
Proof.
  intros qs s skill.
  apply (next_before_timer_skips skill s qs (js "a"));
    [reflexivity | reflexivity | simpl; lia | reflexivity].
Defined.

(** ** The decoded samples *)

Local Open Scope Z_scope.

(** Dividing a double by [2^15] lowers its exponent. *)
Lemma fdiv_32768 s m e :
  Z.pos (digits2_pos m) = 53 → -1000 ≤ e ≤ 900 →
  fdiv (S754_finite s m e) (S754_finite false 4503599627370496 (-37))
  = S754_finite s m (e - 15).
Proof.
  intros Hd He. unfold fdiv, SFdiv, SFdiv_core_binary.
  change (Zdigits2 (Z.pos m)) with (Z.pos (digits2_pos m)). rewrite Hd.
  change (Zdigits2 4503599627370496) with 53.
  unfold fexp, emin.
  replace (Z.min (Z.max (53 + e - (53 + -37) - 53) (3 - 1024 - 53))
             (e - -37)) with (e - 16) by lia.
  replace (e - -37 - (e - 16)) with 53 by lia.
  cbv beta iota zeta.
  rewrite Z.shiftl_mul_pow2 by lia.
  pose proof (Z.div_mul (2 * Z.pos m) 4503599627370496 ltac:(lia)) as Hq.
  pose proof (Z.mod_mul (2 * Z.pos m) 4503599627370496 ltac:(lia)) as Hr.
  replace (2 * Z.pos m * 4503599627370496) with (Z.pos m * 2 ^ 53)
    in Hq, Hr by lia.
  unfold Z.div, Z.modulo in Hq, Hr.
  destruct (Z.div_eucl (Z.pos m * 2 ^ 53) 4503599627370496) as [q r].
  simpl in Hq, Hr. subst q r.
  change (new_location 4503599627370496 0) with loc_Exact.
  rewrite xorb_false_r.
  change (2 * Z.pos m) with (Z.pos m~0).
  unfold binary_round_aux, shr_fexp, fexp, emin.
  change (Zdigits2 (Z.pos m~0)) with (Z.pos (Pos.succ (digits2_pos m))).
  rewrite Pos2Z.inj_succ, Hd.
  replace (Z.max (Z.succ 53 + (e - 16) - 53) (3 - 1024 - 53) - (e - 16))
    with 1 by lia.
  cbn [shr shr_record_of_loc SpecFloat.iter_pos shr_1 orb fst snd shr_m
       loc_of_shr_record round_nearest_even shr_r shr_s].
  change (Zdigits2 (Z.pos m)) with (Z.pos (digits2_pos m)). rewrite Hd.
  replace (Z.max (53 + (e - 16 + 1) - 53) (3 - 1024 - 53) - (e - 16 + 1))
    with 0 by lia.
  cbn [shr shr_m].
  replace (e - 16 + 1) with (e - 15) by lia.
  destruct (Z.leb_spec (e - 15) (1024 - 53)); [done | lia].
Qed.

(** A double whose low 29 bits are zero is a float, exactly. *)
Lemma toFloat32_exact s q e :
  Z.pos (digits2_pos q) = 24 → -100 ≤ e ≤ 0 →
  toFloat32 (S754_finite s (Pos.iter xO q 29) e) = S754_finite s q (e + 29).
Proof.
  intros Hd He. unfold toFloat32, binary_round, shl_align, fexp, emin.
  rewrite digits2_pos_iter_xO, Pos2Z.inj_add, Hd.
  replace (Z.max (24 + 29 + e - 24) (3 - 128 - 24) - e) with 29 by lia.
  unfold binary_round_aux, shr_fexp, fexp, emin.
  change (Zdigits2 (Z.pos (Pos.iter xO q 29)))
    with (Z.pos (digits2_pos (Pos.iter xO q 29))).
  rewrite digits2_pos_iter_xO, Pos2Z.inj_add, Hd.
  replace (Z.max (24 + 29 + e - 24) (3 - 128 - 24) - e) with 29 by lia.
  change (shr (shr_record_of_loc (Z.pos (Pos.iter xO q 29)) loc_Exact) e 29)
    with ({| shr_m := Z.pos q; shr_r := false; shr_s := false |}, e + 29).
  cbn [shr_m loc_of_shr_record round_nearest_even shr_r shr_s].
  change (Zdigits2 (Z.pos q)) with (Z.pos (digits2_pos q)). rewrite Hd.
  replace (Z.max (24 + (e + 29) - 24) (3 - 128 - 24) - (e + 29)) with 0 by lia.
  cbn [shr shr_m shr_record_of_loc].
  destruct (Z.leb_spec (e + 29) (128 - 24)); [done | lia].
Qed.

(** The sample of a non-zero 16-bit value: its bits at the top of the
    24-bit mantissa. *)
Lemma sampleOfInt16_signed s p j :
  (digits2_pos p + j = 24)%positive →
  sampleOfInt16 (signed s p)
  = S754_finite s (Pos.iter xO p j) (- Z.pos j - 15).
Proof.
  intros Hd. unfold sampleOfInt16.
  change (double_of_Z 32768) with (S754_finite false 4503599627370496 (-37)).
  assert (double_of_Z (signed s p) = binary_round 53 1024 s p 0) as ->
    by by destruct s.
  rewrite (double_of_short s p (29 + j)) by lia.
  rewrite fdiv_32768 by (rewrite ?digits2_pos_iter_xO; lia).
  rewrite Pos.iter_add, toFloat32_exact
    by (rewrite ?digits2_pos_iter_xO; lia).
  f_equal. lia.
Qed.

Lemma scaled_signed s p j :
  scaled 15 (S754_finite s (Pos.iter xO p j) (- Z.pos j - 15))
  = Some (signed s p).
Proof.
  unfold scaled.
  replace (- Z.pos j - 15 + 15) with (- Z.pos j) by lia.
  rewrite Z.opp_involutive.
  destruct (Z.leb_spec 0 (- Z.pos j)) as [|_]; [lia |].
  assert ((if s then Z.neg (Pos.iter xO p j) else Z.pos (Pos.iter xO p j))
          = signed s p * 2 ^ Z.pos j) as ->.
  { destruct s; unfold signed;
      rewrite <- ?Pos2Z.opp_pos, pos_iter_xO; lia. }
  rewrite Z.mod_mul, Z.div_mul by lia. done.
Qed.

Lemma sampleOfInt16_exact v :
  -32768 ≤ v ≤ 32767 →
  scaled 15 (sampleOfInt16 v) = Some v
  ∧ SFleb (S754_finite true 8388608 (-23)) (sampleOfInt16 v) = true
  ∧ SFltb (sampleOfInt16 v) (S754_finite false 8388608 (-23)) = true.
Proof.
  intros Hv. destruct v as [|p|p]; [done | |].
  - pose proof (digits2_pos_bound p 15 ltac:(lia)) as Hd.
    set (j := Z.to_pos (24 - Z.pos (digits2_pos p))).
    assert (digits2_pos p + j = 24)%positive as Hj by lia.
    change (Z.pos p) with (signed false p).
    rewrite (sampleOfInt16_signed false p j Hj), scaled_signed.
    split; [done |]. split; [done |].
    unfold SFltb, SFcompare.
    destruct (Z.compare_spec (- Z.pos j - 15) (-23)); [lia | done | lia].
  - pose proof (digits2_pos_bound p 16 ltac:(lia)) as Hd.
    set (j := Z.to_pos (24 - Z.pos (digits2_pos p))).
    assert (digits2_pos p + j = 24)%positive as Hj by lia.
    change (Z.neg p) with (signed true p).
    rewrite (sampleOfInt16_signed true p j Hj), scaled_signed.
    split; [done |]. split; [| done].
    unfold SFleb, SFcompare.
    destruct (Z.compare_spec (-23) (- Z.pos j - 15)) as [He|He|He];
      [| lia | done].
    assert (j = 8%positive) as -> by lia.
    pose proof (digits2_pos_lower p) as Hl.
    replace (Z.pos (digits2_pos p) - 1) with 15 in Hl by lia.
    assert (p = 32768%positive) as -> by lia.
    done.
Qed.

Local Close Scope Z_scope.

Lemma int16OfBytes_range le b0 b1 :
  (0 ≤ b0 < 256)%Z → (0 ≤ b1 < 256)%Z →
  (-32768 ≤ int16OfBytes le b0 b1 ≤ 32767)%Z.
Proof.
  intros H0 H1. unfold int16OfBytes.
  destruct le; case Z.ltb_spec; lia.
Qed.

Lemma pcmData_range le bytes :
  Forall (λ b, (0 ≤ b < 256)%Z) bytes →
  Forall (λ v, (-32768 ≤ v ≤ 32767)%Z) (pcmData le bytes)
  ∧ length (pcmData le bytes) = length bytes `div` 2.
Proof.
  revert bytes. fix IH 1. intros [|b0 [|b1 rest]] Hall.
  - split; [constructor | done].
  - split; [constructor | done].
  - apply Forall_cons in Hall as [H0 Hall].
    apply Forall_cons in Hall as [H1 Hall].
    destruct (IH rest Hall) as [Hr Hl]. split.
    + simpl. constructor; [by apply int16OfBytes_range | done].
    + simpl pcmData. simpl length. rewrite Hl.
      change (S (S (length rest))) with (1 * 2 + length rest).
      rewrite Nat.div_add_l by lia. lia.
Qed.

(** X16. Every decoded sample is its 16-bit value divided by 32768,
    exactly, whatever the byte order: it lies from -1 and below 1, and
    multiplied by 32768 it gives the 16-bit value back.  There is one
    sample for every two bytes, a last odd byte being left out. *)
Theorem channelData_exact (littleEndian : bool) (binaryString : jsstring) :
  let bytes := bytesOfBinaryString binaryString in
  let pcm := pcmData littleEndian bytes in
  let samples := channelData littleEndian binaryString in
  length bytes = length binaryString
  ∧ length samples = length binaryString `div` 2
  ∧ (∀ i x, samples !! i = Some x →
       ∃ v, pcm !! i = Some v
            ∧ (-32768 ≤ v ≤ 32767)%Z
            ∧ scaled 15 x = Some v
            ∧ SFleb (S754_finite true 8388608 (-23)) x = true
            ∧ SFltb x (S754_finite false 8388608 (-23)) = true).
Proof.
  intros bytes pcm samples.
  assert (Forall (λ b, (0 ≤ b < 256)%Z) bytes) as Hbytes.
  { unfold bytes, bytesOfBinaryString. apply Forall_fmap, Forall_true.
    intros c. simpl. apply Z.mod_pos_bound. lia. }
  assert (length bytes = length binaryString) as Hlen.
  { unfold bytes, bytesOfBinaryString. by rewrite length_fmap. }
  destruct (pcmData_range littleEndian bytes Hbytes) as [Hrange Hpcm].
  split; [done |]. split.
  { unfold samples, channelData. rewrite length_fmap. fold bytes.
    by rewrite Hpcm, Hlen. }
  intros i x Hx. unfold samples, channelData in Hx.
  rewrite list_lookup_fmap in Hx. fold bytes pcm in Hx.
  destruct (pcm !! i) as [v|] eqn:Hv; [| done].
  injection Hx as <-. exists v. split; [done |].
  assert (-32768 ≤ v ≤ 32767)%Z as Hr.
  { rewrite Forall_forall in Hrange. apply Hrange.
    by eapply list_elem_of_lookup_2. }
  split; [done |].
  by apply sampleOfInt16_exact.
Qed.
